(** * Generic CPU primitives of opennmt (cpu_generic.h)

    A shallow embedding of the header [include/opennmt/primitives/cpu_generic.h]
    and the properties of its reductions, top-k selection, quantization,
    batched gemm driver and transposes.

    Conventions of the embedding.
    - A buffer (a [T*] together with the number of elements the caller
      allocated) is a [list T].  Every buffer parameter of a call denotes an
      array object of its own.  An access past the end of a buffer is
      undefined behaviour in C++ and is the result [None] here.
    - [size_t] is the 64-bit unsigned type: a [Z] in [0, 2^64), every
      multiplication and addition reduced modulo [2^64].  The [IndexType] of
      the transposes is instantiated with [size_t].
    - A fixed-width integer element type is an [int_type]; its values are the
      [Z] of its range and [norm] is the conversion to it (reduction modulo
      [2^bits]).
    - [double] is the IEEE 754 binary64 format: the primitive type [float]
      with its operations, which round to nearest.
    - A [for] loop with a [size_t] counter is [for_loop]. *)

From Stdlib Require Import ZArith Lia QArith Qabs.
From Stdlib Require Import PrimFloat FloatOps SpecFloat.
From stdpp Require Import prelude sorting gmap.

Local Open Scope Z_scope.

Module primitives.

(** ** Machine integers *)

Definition size_max : Z := 2 ^ 64.

(** Conversion of a mathematical result to [size_t]. *)
Definition wrap (z : Z) : Z := z mod size_max.

Definition mul_sz (x y : Z) : Z := wrap (x * y).
Definition add_sz (x y : Z) : Z := wrap (x + y).

Record int_type := IntType { bits : positive; signed : bool }.

Definition modulus (ty : int_type) : Z := 2 ^ Z.pos (bits ty).
Definition half_modulus (ty : int_type) : Z := 2 ^ (Z.pos (bits ty) - 1).

Definition min_value (ty : int_type) : Z :=
  if signed ty then - half_modulus ty else 0.
Definition max_value (ty : int_type) : Z :=
  if signed ty then half_modulus ty - 1 else modulus ty - 1.

Definition in_range (ty : int_type) (z : Z) : Prop :=
  min_value ty ≤ z ≤ max_value ty.

(** Conversion to the element type: the value congruent modulo [2^bits]
    that lies in the range of the type. *)
Definition norm (ty : int_type) (z : Z) : Z :=
  if signed ty
  then (z + half_modulus ty) mod modulus ty - half_modulus ty
  else z mod modulus ty.

Definition int8_t : int_type := IntType 8 true.
Definition int32_t : int_type := IntType 32 true.
Definition uint8_t : int_type := IntType 8 false.
Definition uint32_t : int_type := IntType 32 false.

(** ** Buffers and loops *)

(** [buf[i]] as an rvalue. *)
Definition load {T} (buf : list T) (i : Z) : option T :=
  if decide (0 ≤ i) then buf !! Z.to_nat i else None.

(** [buf[i] = v]. *)
Definition store {T} (buf : list T) (i : Z) (v : T) : option (list T) :=
  if decide (0 ≤ i < Z.of_nat (length buf))
  then Some (<[Z.to_nat i := v]> buf)
  else None.

(** [count] iterations of [body], the counter starting at [i]. *)
Fixpoint for_loop {St} (count : nat) (i : Z)
    (body : Z → St → option St) (s : St) : option St :=
  match count with
  | O => Some s
  | S count' => s' ← body i s; for_loop count' (i + 1) body s'
  end.

(** [for (size_t i = 0; i < n; ++i) body] *)
Definition for_range {St} (n : Z) (body : Z → St → option St) (s : St)
    : option St :=
  for_loop (Z.to_nat n) 0 body s.

(** ** Elementwise transforms *)

Definition unary_transform {T1 T2} (x : list T1) (y : list T2) (size : Z)
    (func : T1 → T2) : option (list T2) :=
  for_range size (λ i y, v ← load x i; store y i (func v)) y.

Definition binary_transform {T1 T2} (a b : list T1) (c : list T2) (size : Z)
    (func : T1 → T1 → T2) : option (list T2) :=
  for_range size
    (λ i c, v1 ← load a i; v2 ← load b i; store c i (func v1 v2)) c.

(** [add(const T* a, const T* b, T* c, size_t size)] *)
Definition add (ty : int_type) (a b c : list Z) (size : Z) : option (list Z) :=
  binary_transform a b c size (λ v1 v2, norm ty (v1 + v2)).

(** [sub(const T* a, const T* b, T* c, size_t size)] *)
Definition sub (ty : int_type) (a b c : list Z) (size : Z) : option (list Z) :=
  binary_transform a b c size (λ v1 v2, norm ty (v1 - v2)).

(** ** Reductions *)

(** [std::accumulate(first, first + size, init)]: [init = init + *it] for
    every element in turn, the sum converted back to [T]. *)
Definition accumulate (ty : int_type) (array : list Z) (size : Z) (init : Z)
    : option Z :=
  for_range size (λ i acc, v ← load array i; Some (norm ty (acc + v))) init.

Definition sum (ty : int_type) (array : list Z) (size : Z) : option Z :=
  accumulate ty array size (norm ty 0).

(** [sum(array, size) / size]: the left operand has type [T], the right one
    [size_t].  For every integer [T] of at most 64 bits the usual arithmetic
    conversions turn the left operand into the 64-bit unsigned type, the
    division is the unsigned one, and the quotient is converted to [T] on
    return. *)
Definition mean (ty : int_type) (array : list Z) (size : Z) : option Z :=
  s ← sum ty array size;
  if decide (size = 0) then None else Some (norm ty (wrap s / size)).

(** [std::max_element(array, array + size) - array]: the result starts at the
    first element and moves to a later one only when that one is strictly
    greater. *)
Definition max_element (array : list Z) (size : Z) : option Z :=
  if decide (size = 0) then Some 0
  else
    for_loop (Z.to_nat (size - 1)) 1
      (λ i result,
         r ← load array result; v ← load array i;
         Some (if bool_decide (r < v) then i else result))
      0.

Definition max (array : list Z) (size : Z) : option Z :=
  i ← max_element array size; load array i.

(** ** Top-k *)

(** The comparison of [topk]: [x[i1] > x[i2]].  It reads [x] at both
    indices and has no result when one of them lies outside [x]. *)
Definition comp (x : list Z) (i1 i2 : Z) : option bool :=
  v1 ← load x i1; v2 ← load x i2; Some (bool_decide (v2 < v1)).

(** [std::iota(indices, indices + size, value)]: [*first = value; ++value]
    for every cell in turn.  The counter has the type of the initial value;
    [topk] passes the literal [0], so it is an [int], the 32-bit signed
    type, and its increment wraps around like all arithmetic on a
    fixed-width type here.  Each cell receives the counter converted to the
    index type [I], here [ity]. *)
Definition iota (ity : int_type) (indices : list Z) (size : Z) (value : Z)
    : option (list Z) :=
  fst <$> for_range size
    (λ j '(buf, value),
       buf' ← store buf j (norm ity value);
       Some (buf', norm int32_t (value + 1)))
    (indices, value).

Section TopK.
(** [std::partial_sort] comes from the C++ standard library; it is a
    parameter: [partial_sort comp k l] is the content of the range
    [first, last) after the call [std::partial_sort(first, first + k,
    last, comp)] on a range that held [l], when the call has a result.  The
    library is free in the comparisons it makes, so that it decides whether
    a comparison without result is reached. *)
Variable partial_sort :
  (Z → Z → option bool) → nat → list Z → option (list Z).

Definition topk (ity : int_type) (x : list Z) (indices : list Z) (k size : Z)
    : option (list Z) :=
  buf ← iota ity indices size 0;
  range ← partial_sort (comp x) (Z.to_nat k) (take (Z.to_nat size) buf);
  Some (range ++ drop (Z.to_nat size) buf).
End TopK.

(** ** Transposes *)

Definition transpose_2d {T} (a : list T) (dims : list Z) (b : list T)
    : option (list T) :=
  d0 ← load dims 0;
  d1 ← load dims 1;
  for_range d0 (λ i0 b,
    for_range d1 (λ i1 b,
      v ← load a (add_sz (mul_sz i0 d1) i1);
      store b (add_sz (mul_sz i1 d0) i0) v) b) b.

(** [perm_ind] is declared without initialiser: its cells start out [None]
    and reading a cell that was never assigned has no result. *)
Definition inverse_perm (n : Z) (perm : list Z) : option (list (option Z)) :=
  for_range n (λ i perm_ind, p ← load perm i; store perm_ind p (Some i))
    (replicate (Z.to_nat n) None).

Definition load_init (arr : list (option Z)) (i : Z) : option Z :=
  mjoin (load arr i).

(** [dims[perm[i]]] *)
Definition load_perm (dims perm : list Z) (i : Z) : option Z :=
  p ← load perm i; load dims p.

(** [b_stride[perm_ind[j]]] *)
Definition load_stride (b_stride : list Z) (perm_ind : list (option Z))
    (j : Z) : option Z :=
  p ← load_init perm_ind j; load b_stride p.

Definition transpose_3d {T} (a : list T) (dims perm : list Z) (b : list T)
    : option (list T) :=
  perm_ind ← inverse_perm 3 perm;
  d0 ← load dims 0; d1 ← load dims 1; d2 ← load dims 2;
  let a_stride := [mul_sz d1 d2; d2; 1] in
  e1 ← load_perm dims perm 1; e2 ← load_perm dims perm 2;
  let b_stride := [mul_sz e1 e2; e2; 1] in
  s0 ← load_stride b_stride perm_ind 0;
  s1 ← load_stride b_stride perm_ind 1;
  s2 ← load_stride b_stride perm_ind 2;
  let perm_b_stride := [s0; s1; s2] in
  for_range d0 (λ i0 b,
    for_range d1 (λ i1 b,
      for_range d2 (λ i2 b,
        let b_i := add_sz (add_sz (mul_sz i0 s0) (mul_sz i1 s1))
                     (mul_sz i2 s2) in
        let a_i := add_sz (add_sz (mul_sz i0 (mul_sz d1 d2)) (mul_sz i1 d2))
                     (mul_sz i2 1) in
        v ← load a a_i; store b b_i v) b) b) b.

Definition transpose_4d {T} (a : list T) (dims perm : list Z) (b : list T)
    : option (list T) :=
  perm_ind ← inverse_perm 4 perm;
  d0 ← load dims 0; d1 ← load dims 1; d2 ← load dims 2; d3 ← load dims 3;
  let a0 := mul_sz (mul_sz d1 d2) d3 in
  let a1 := mul_sz d2 d3 in
  e1 ← load_perm dims perm 1; e2 ← load_perm dims perm 2;
  e3 ← load_perm dims perm 3;
  let b_stride := [mul_sz (mul_sz e1 e2) e3; mul_sz e2 e3; e3; 1] in
  s0 ← load_stride b_stride perm_ind 0;
  s1 ← load_stride b_stride perm_ind 1;
  s2 ← load_stride b_stride perm_ind 2;
  s3 ← load_stride b_stride perm_ind 3;
  for_range d0 (λ i0 b,
    for_range d1 (λ i1 b,
      for_range d2 (λ i2 b,
        for_range d3 (λ i3 b,
          let b_i := add_sz (add_sz (add_sz (mul_sz i0 s0) (mul_sz i1 s1))
                               (mul_sz i2 s2)) (mul_sz i3 s3) in
          let a_i := add_sz (add_sz (add_sz (mul_sz i0 a0) (mul_sz i1 a1))
                               (mul_sz i2 d3)) (mul_sz i3 1) in
          v ← load a a_i; store b b_i v) b) b) b) b.

(** ** Batched gemm *)

Section Gemm.
(** [gemm] is declared in the header and defined by a backend.  A pointer
    is the address of its first element, counted in elements; a backend
    is any transformer of the memory [Mem], which may also fail. *)
Context {In Out Mem : Type}.
Variable gemm :
  Z → Z → bool → bool → Z → Z → Z → In → Out → Z → Mem → option Mem.

Definition gemm_batch (a b : Z) (transpose_a transpose_b : bool)
    (batch_size m n k : Z) (alpha : In) (beta : Out) (c : Z) (mem : Mem)
    : option Mem :=
  for_range batch_size (λ i mem,
    let a_i := a + mul_sz (mul_sz i m) k in
    let b_i := b + mul_sz (mul_sz i k) n in
    let c_i := c + mul_sz (mul_sz i m) n in
    gemm a_i b_i transpose_a transpose_b m n k alpha beta c_i mem) mem.
End Gemm.

(** ** Fill and copy *)

(** [std::fill_n(x, size, a)] *)
Definition fill {T} (x : list T) (a : T) (size : Z) : option (list T) :=
  for_range size (λ i x, store x i a) x.

(** [std::copy_n(x, size, y)]; the two ranges are distinct objects. *)
Definition copy {T} (x y : list T) (size : Z) : option (list T) :=
  for_range size (λ i y, v ← load x i; store y i v) y.

(** ** Transforms on buffers that may be shared

    The in-place overloads hand the same pointer to a transform as input and
    as output.  For them the buffers live in a memory indexed by the pointer
    (the identity of the array object), every read sees the writes that came
    before it, and the function applied to an element may have no result
    (division by zero).

    The two-pointer overloads [add(x, y, size)] and [mul(x, y, size)] call
    the four-argument overload, which is declared after them; for an
    arithmetic [T] the call finds no declaration, so that they have no
    instance and no embedding. *)

Abbreviation memory := (gmap nat (list Z)).

(** [p[i]] as an rvalue. *)
Definition read (m : memory) (p : nat) (i : Z) : option Z :=
  buf ← m !! p; load buf i.

(** [p[i] = v] *)
Definition write (m : memory) (p : nat) (i : Z) (v : Z) : option memory :=
  buf ← m !! p; buf' ← store buf i v; Some (<[p := buf']> m).

Definition unary_transform_at (x y : nat) (size : Z) (func : Z → option Z)
    (m : memory) : option memory :=
  for_range size (λ i m, v ← read m x i; w ← func v; write m y i w) m.

Definition binary_transform_at (a b c : nat) (size : Z)
    (func : Z → Z → option Z) (m : memory) : option memory :=
  for_range size
    (λ i m, v1 ← read m a i; v2 ← read m b i; w ← func v1 v2; write m c i w)
    m.

(** [add(T a, T* y, size_t size)] *)
Definition add_scalar (ty : int_type) (a : Z) (y : nat) (size : Z)
    : memory → option memory :=
  unary_transform_at y y size (λ v, Some (norm ty (v + a))).

(** [add(const T* a, const T* b, T* c, size_t size)] on pointers. *)
Definition add_at (ty : int_type) (a b c : nat) (size : Z)
    : memory → option memory :=
  binary_transform_at a b c size (λ v1 v2, Some (norm ty (v1 + v2))).

(** [sub(T a, T* y, size_t size)] *)
Definition sub_scalar (ty : int_type) (a : Z) (y : nat) (size : Z)
    : memory → option memory :=
  let a_rev := norm ty (- a) in
  add_scalar ty a_rev y size.

(** [mul(T a, T* y, size_t size)] *)
Definition mul_scalar (ty : int_type) (a : Z) (y : nat) (size : Z)
    : memory → option memory :=
  unary_transform_at y y size (λ v, Some (norm ty (v * a))).

(** [mul(const T* a, const T* b, T* c, size_t size)] *)
Definition mul_at (ty : int_type) (a b c : nat) (size : Z)
    : memory → option memory :=
  binary_transform_at a b c size (λ v1 v2, Some (norm ty (v1 * v2))).

(** [inv(const T* x, T* y, size_t size)] on an integer element type:
    [static_cast<T>(1) / v] is the truncating quotient and has no result for
    [v = 0]. *)
Definition inv (ty : int_type) (x y : nat) (size : Z)
    : memory → option memory :=
  unary_transform_at x y size
    (λ v, if decide (v = 0) then None else Some (norm ty (1 ÷ v))).

(** [relu(const T* x, T* y, size_t size)] *)
Definition relu (ty : int_type) (x y : nat) (size : Z)
    : memory → option memory :=
  unary_transform_at x y size
    (λ v, Some (if bool_decide (0 < v) then v else norm ty 0)).

(** [relu(T* x, size_t size)] *)
Definition relu_inplace (ty : int_type) (x : nat) (size : Z)
    : memory → option memory :=
  relu ty x x size.

(** ** Quantization

    [quantize] and [unquantize] are embedded for the wide type [double],
    the IEEE 754 binary64 format, and an integer narrow type. *)








(** ** Notions used to state the properties *)

(** Sequential execution of [body] on the elements of a list. *)
Fixpoint run {A St} (body : A → St → option St) (l : list A) (s : St)
    : option St :=
  match l with
  | [] => Some s
  | x :: l' => s' ← body x s; run body l' s'
  end.

(** The loop nest [for (i0 < d0) for (i1 < d1) ... body [i0; i1; ...]] over
    the extents [dims]. *)
Fixpoint loop_nest {St} (dims : list Z) (body : list Z → St → option St)
    : St → option St :=
  match dims with
  | [] => body []
  | d :: dims' => for_range d (λ i, loop_nest dims' (λ idx, body (i :: idx)))
  end.

(** Two integers that [size_t] does not tell apart. *)
Definition eqw (x y : Z) : Prop := wrap x = wrap y.

(** [b[p.1] = a[p.2]] *)
Definition copy_elem {T} (a : list T) (p : Z * Z) (b : list T)
    : option (list T) :=
  v ← load a p.2; store b p.1 v.

(** Number of elements of a tensor of the given shape. *)
Definition product (shape : list Z) : Z := foldr Z.mul 1 shape.

(** Row-major linear index of the multi-index [idx] in a tensor of shape
    [shape]: the stride of an axis is the product of the later extents. *)
Fixpoint row_major (shape idx : list Z) : Z :=
  match shape, idx with
  | _ :: shape', i :: idx' => i * product shape' + row_major shape' idx'
  | _, _ => 0
  end.

(** [idx] is a multi-index over [dims]. *)
Definition multi_index (dims idx : list Z) : Prop :=
  Forall2 (λ i d, 0 ≤ i < d) idx dims.

(** All multi-indices over [dims], in the order of the nested loops. *)
Fixpoint multi_indices (dims : list Z) : list (list Z) :=
  match dims with
  | [] => [[]]
  | d :: dims' => i ← seqZ 0 d; cons i <$> multi_indices dims'
  end.

(** [l] read through [perm]: the sequence of the [l[perm[j]]]. *)
Definition permute (perm l : list Z) : list Z :=
  (λ p, l !!! Z.to_nat p) <$> perm.

(** [perm] is a bijection over the axis indices [0 .. n-1]. *)
Definition is_permutation (n : Z) (perm : list Z) : Prop :=
  perm ≡ₚ seqZ 0 n.

(** A strict weak ordering: irreflexive, transitive, and with a transitive
    equivalence [!comp(a, b) && !comp(b, a)]. *)
Definition strict_weak_order {A} (comp : A → A → bool) : Prop :=
  (∀ a, comp a a = false) ∧
  (∀ a b c, comp a b = true → comp b c = true → comp a c = true) ∧
  (∀ a b c,
     comp a b = false → comp b a = false →
     comp b c = false → comp c b = false →
     comp a c = false ∧ comp c a = false).

(** The requirement of the standard library on the comparison it is handed
    for a range [l]: every comparison of two elements of the range has a
    result, and on these elements it induces a strict weak ordering. *)
Definition strict_weak_order_on {A} (l : list A) (comp : A → A → option bool)
    : Prop :=
  (∀ a b, a ∈ l → b ∈ l → is_Some (comp a b)) ∧
  (∀ a, a ∈ l → comp a a = Some false) ∧
  (∀ a b c, a ∈ l → b ∈ l → c ∈ l →
     comp a b = Some true → comp b c = Some true → comp a c = Some true) ∧
  (∀ a b c, a ∈ l → b ∈ l → c ∈ l →
     comp a b = Some false → comp b a = Some false →
     comp b c = Some false → comp c b = Some false →
     comp a c = Some false ∧ comp c a = Some false).

(** The guarantee of [std::partial_sort(first, first + k, last, comp)] for a
    comparison that meets the requirement on the range and [k] within the
    range: the call has a result, the range is permuted, its first [k]
    elements are sorted with respect to [comp], and no element after them is
    ordered before one of them.  The order of the elements after the first
    [k], and of equivalent elements, is left open, and so is what the
    library does outside the requirement. *)
Definition partial_sort_contract
    (partial_sort : (Z → Z → option bool) → nat → list Z → option (list Z))
    : Prop :=
  ∀ (comp : Z → Z → option bool) (k : nat) (l : list Z),
    strict_weak_order_on l comp → (k ≤ length l)%nat →
    ∃ l', partial_sort comp k l = Some l' ∧
      l' ≡ₚ l ∧
      ∀ (p q : nat) (u v : Z),
        (p < k)%nat → (p < q)%nat →
        l' !! p = Some u → l' !! q = Some v →
        comp v u = Some false.

(** [a] is at least [b]. *)
Definition at_least (a b : Z) : Prop := b ≤ a.

#[global] Instance at_least_dec (a b : Z) : Decision (at_least a b).
Proof. unfold at_least. apply _. Defined.


(** [v] is not ordered before [u]. *)
Definition not_before {A} (comp : A → A → bool) (u v : A) : Prop :=
  comp v u = false.

#[global] Instance not_before_dec {A} (comp : A → A → bool) (u v : A) :
  Decision (not_before comp u v).
Proof. unfold not_before. apply _. Defined.

(** The comparison [comp] as the range [l] sees it: two elements of the
    range compare as [comp] says, and an element of the range comes before
    every value that is not in the range. *)
Definition within (l : list Z) (comp : Z → Z → option bool) (u v : Z)
    : bool :=
  if decide (u ∈ l)
  then if decide (v ∈ l) then default false (comp u v) else true
  else false.

(** Every comparison of two elements of [l] has a result. *)
Definition comparable (l : list Z) (comp : Z → Z → option bool) : Prop :=
  Forall (λ u, Forall (λ v, is_Some (comp u v)) l) l.

(** One library that meets the guarantee: it sorts the whole range, and has
    no result outside the requirement. *)
Definition partial_sort_ref (comp : Z → Z → option bool) (k : nat)
    (l : list Z) : option (list Z) :=
  if decide ((k ≤ length l)%nat ∧ comparable l comp)
  then Some (merge_sort (not_before (within l comp)) l)
  else None.

(** The memory when a unary transform that reads [xs] and writes the buffer
    [y], which held [ys], has reached the index [j]: the elements below [j]
    are results, the others are as they were. *)
Definition unary_state (func : Z → option Z) (m : memory) (y : nat)
    (xs ys : list Z) (j : Z) (mj : memory) : Prop :=
  ∃ out, mj = <[y := out]> m ∧
    length out = length ys ∧
    (∀ i, 0 ≤ i < j → ∃ v, load xs i = Some v ∧ load out i = func v) ∧
    (∀ i, j ≤ i → load out i = load ys i).

(** The same for a binary transform that reads [a_s] and [bs] and writes the
    buffer [c], which held [cs]. *)
Definition binary_state (func : Z → Z → option Z) (m : memory) (c : nat)
    (a_s bs cs : list Z) (j : Z) (mj : memory) : Prop :=
  ∃ out, mj = <[c := out]> m ∧
    length out = length cs ∧
    (∀ i, 0 ≤ i < j →
       ∃ v1 v2, load a_s i = Some v1 ∧ load bs i = Some v2 ∧
                load out i = func v1 v2) ∧
    (∀ i, j ≤ i → load out i = load cs i).

(** A backend that only records the arguments of each call to [gemm]. *)
Definition gemm_call : Type := Z * Z * bool * bool * Z * Z * Z * Z * Z * Z.

Definition gemm_record (a b : Z) (transpose_a transpose_b : bool)
    (m n k : Z) (alpha beta : Z) (c : Z) (log : list gemm_call)
    : option (list gemm_call) :=
  Some (log ++ [(a, b, transpose_a, transpose_b, m, n, k, alpha, beta, c)]).



(** * Properties *)

(** ** Machine integers *)

Lemma size_max_pos : 0 < size_max.
Proof. by unfold size_max. Qed.

Lemma wrap_small z : 0 ≤ z < size_max → wrap z = z.
Proof. intros. unfold wrap. by apply Z.mod_small. Qed.

Lemma modulus_half ty : modulus ty = 2 * half_modulus ty.
Proof.
  unfold modulus, half_modulus.
  rewrite <- Z.pow_succ_r by lia. f_equal. lia.
Qed.

Lemma half_modulus_pos ty : 0 < half_modulus ty.
Proof. unfold half_modulus. apply Z.pow_pos_nonneg; lia. Qed.

Lemma modulus_pos ty : 0 < modulus ty.
Proof. rewrite modulus_half. pose proof (half_modulus_pos ty). lia. Qed.

Lemma norm_in_range ty z : in_range ty (norm ty z).
Proof.
  unfold in_range, norm, min_value, max_value.
  pose proof (modulus_pos ty) as Hm. pose proof (modulus_half ty) as Hh.
  destruct (signed ty).
  - pose proof (Z.mod_pos_bound (z + half_modulus ty) _ Hm). lia.
  - pose proof (Z.mod_pos_bound z _ Hm). lia.
Qed.

Lemma norm_id ty z : in_range ty z → norm ty z = z.
Proof.
  unfold in_range, norm, min_value, max_value.
  pose proof (modulus_half ty) as Hh.
  destruct (signed ty); intros Hz.
  - rewrite Z.mod_small by lia. lia.
  - apply Z.mod_small. lia.
Qed.

(** Conversion commutes with addition: only the residue of an operand
    matters. *)
Lemma norm_add_l ty x y : norm ty (norm ty x + y) = norm ty (x + y).
Proof.
  unfold norm. pose proof (modulus_pos ty) as Hm.
  destruct (signed ty).
  - f_equal.
    replace ((x + half_modulus ty) mod modulus ty - half_modulus ty + y
             + half_modulus ty)
      with ((x + half_modulus ty) mod modulus ty + y) by lia.
    rewrite Zplus_mod_idemp_l. f_equal. lia.
  - by rewrite Zplus_mod_idemp_l.
Qed.

Lemma norm_add_sub ty x y :
  in_range ty x → norm ty (norm ty (x + y) - y) = x.
Proof.
  intros Hx.
  replace (norm ty (x + y) - y) with (norm ty (x + y) + - y) by lia.
  rewrite norm_add_l.
  replace (x + y + - y) with x by lia.
  by apply norm_id.
Qed.

(** ** Buffers *)

Lemma load_Some {T} (buf : list T) i v :
  load buf i = Some v ↔ 0 ≤ i ∧ buf !! Z.to_nat i = Some v.
Proof.
  unfold load. destruct (decide (0 ≤ i)); [tauto|].
  split; [intros [=] | intros [? _]; lia].
Qed.

Lemma load_lt {T} (buf : list T) i :
  0 ≤ i < Z.of_nat (length buf) → ∃ v, load buf i = Some v.
Proof.
  intros Hi. destruct (lookup_lt_is_Some_2 buf (Z.to_nat i)) as [v Hv]; [lia|].
  exists v. apply load_Some. split; [lia | done].
Qed.

Lemma load_Some_lt {T} (buf : list T) i v :
  load buf i = Some v → 0 ≤ i < Z.of_nat (length buf).
Proof.
  intros [Hi Hv]%load_Some. apply lookup_lt_Some in Hv. lia.
Qed.

Lemma store_Some {T} (buf : list T) i v :
  0 ≤ i < Z.of_nat (length buf) →
  store buf i v = Some (<[Z.to_nat i := v]> buf).
Proof. intros. unfold store. by rewrite decide_True. Qed.

Lemma store_None {T} (buf : list T) i v :
  Z.of_nat (length buf) ≤ i → store buf i v = None.
Proof. intros. unfold store. rewrite decide_False; [done | lia]. Qed.

Lemma store_inv {T} (buf buf' : list T) i v :
  store buf i v = Some buf' →
  0 ≤ i < Z.of_nat (length buf) ∧ buf' = <[Z.to_nat i := v]> buf.
Proof. unfold store. destruct (decide _); [intros [= <-] | intros [=]]; done. Qed.

Lemma load_insert_eq {T} (buf : list T) i v :
  0 ≤ i < Z.of_nat (length buf) → load (<[Z.to_nat i := v]> buf) i = Some v.
Proof.
  intros. apply load_Some. split; [lia|].
  apply list_lookup_insert_eq. lia.
Qed.

Lemma load_insert_ne {T} (buf : list T) i j v :
  0 ≤ i → i ≠ j → load (<[Z.to_nat i := v]> buf) j = load buf j.
Proof.
  intros. unfold load. case_decide; [|done].
  apply list_lookup_insert_ne. lia.
Qed.

Lemma take_load_ext {T} (a c : list T) :
  (∀ i, 0 ≤ i < Z.of_nat (length a) → load c i = load a i) →
  take (length a) c = a.
Proof.
  intros Heq. apply list_eq. intros n.
  destruct (decide (n < length a)%nat) as [Hn|Hn].
  - rewrite lookup_take_lt by done.
    specialize (Heq (Z.of_nat n)). unfold load in Heq.
    rewrite !decide_True, !Nat2Z.id in Heq by lia. apply Heq. lia.
  - rewrite lookup_take_ge by lia. symmetry. apply lookup_ge_None. lia.
Qed.

(** Reading a list through the sequence of its positions gives it back. *)
Lemma permute_identity (l : list Z) :
  permute (seqZ 0 (Z.of_nat (length l))) l = l.
Proof.
  apply list_eq. intros n. unfold permute. rewrite list_lookup_fmap.
  destruct (decide (n < length l)%nat) as [Hn|Hn].
  - rewrite lookup_seqZ_lt by lia. simpl.
    replace (Z.to_nat (0 + Z.of_nat n)) with n by lia.
    symmetry. by apply list_lookup_lookup_total_lt.
  - rewrite lookup_seqZ_ge by lia. simpl. symmetry. apply lookup_ge_None. lia.
Qed.

(** ** Loops *)

(** A loop whose body preserves an invariant runs to its end and
    establishes the invariant at the final value of the counter. *)
Lemma for_loop_inv {St} (P : Z → St → Prop) (body : Z → St → option St)
    count i s :
  P i s →
  (∀ j t, i ≤ j < i + Z.of_nat count → P j t →
     ∃ t', body j t = Some t' ∧ P (j + 1) t') →
  ∃ s', for_loop count i body s = Some s' ∧ P (i + Z.of_nat count) s'.
Proof.
  revert i s. induction count as [|count IH]; intros i s Hs Hbody.
  - exists s. split; [done|]. by replace (i + Z.of_nat 0) with i by lia.
  - destruct (Hbody i s) as (t & Ht & HPt); [lia | done |].
    destruct (IH (i + 1) t) as (s' & Hs' & HP'); [done | |].
    { intros j u Hj. apply Hbody. lia. }
    exists s'. simpl. rewrite Ht. simpl. split; [done|].
    by replace (i + Z.of_nat (S count)) with (i + 1 + Z.of_nat count) by lia.
Qed.

Lemma for_range_inv {St} (P : Z → St → Prop) (body : Z → St → option St)
    n s :
  0 ≤ n →
  P 0 s →
  (∀ j t, 0 ≤ j < n → P j t → ∃ t', body j t = Some t' ∧ P (j + 1) t') →
  ∃ s', for_range n body s = Some s' ∧ P n s'.
Proof.
  intros Hn Hs Hbody.
  destruct (for_loop_inv P body (Z.to_nat n) 0 s) as (s' & Hs' & HP);
    [done | | ].
  { intros j t Hj. apply Hbody. lia. }
  exists s'. split; [done|]. by replace n with (0 + Z.of_nat (Z.to_nat n)) by lia.
Qed.

(** When a loop returns, every iteration started in a state of the
    invariant and had a result. *)
Lemma for_loop_Some_inv {St} (P : Z → St → Prop) (body : Z → St → option St)
    count i s s' :
  for_loop count i body s = Some s' →
  P i s →
  (∀ j t t', i ≤ j < i + Z.of_nat count → P j t → body j t = Some t' →
     P (j + 1) t') →
  ∀ j, i ≤ j < i + Z.of_nat count → ∃ t, P j t ∧ is_Some (body j t).
Proof.
  revert i s. induction count as [|count IH]; intros i s Hrun Hs Hstep j Hj;
    [lia|].
  simpl in Hrun. destruct (body i s) as [t|] eqn:Hbody; [|done].
  simpl in Hrun. destruct (decide (j = i)) as [->|Hne].
  - exists s. split; [done|]. by rewrite Hbody.
  - apply (IH (i + 1) t Hrun); [| | lia].
    + apply (Hstep i s); [lia | done..].
    + intros k u u' Hk. apply Hstep. lia.
Qed.

Lemma for_range_Some_inv {St} (P : Z → St → Prop) (body : Z → St → option St)
    n s s' :
  for_range n body s = Some s' →
  P 0 s →
  (∀ j t t', 0 ≤ j < n → P j t → body j t = Some t' → P (j + 1) t') →
  ∀ j, 0 ≤ j < n → ∃ t, P j t ∧ is_Some (body j t).
Proof.
  intros Hrun Hs Hstep j Hj.
  apply (for_loop_Some_inv P body (Z.to_nat n) 0 s s' Hrun Hs); [|lia].
  intros k t t' Hk. apply Hstep. lia.
Qed.

Lemma for_loop_run {St} (body : Z → St → option St) count i s :
  for_loop count i body s = run body (seqZ i (Z.of_nat count)) s.
Proof.
  revert i s. induction count as [|count IH]; intros i s; [done|].
  rewrite Nat2Z.inj_succ, seqZ_cons by lia. simpl.
  destruct (body i s) as [t|]; simpl; [|done].
  rewrite IH. do 3 f_equal; lia.
Qed.

Lemma for_range_run {St} (body : Z → St → option St) n s :
  for_range n body s = run body (seqZ 0 n) s.
Proof.
  unfold for_range. rewrite for_loop_run.
  destruct (decide (0 ≤ n)).
  - by rewrite Z2Nat.id.
  - replace (Z.to_nat n) with 0%nat by lia.
    by rewrite (seqZ_nil 0 n) by lia.
Qed.

Lemma run_app {A St} (body : A → St → option St) l1 l2 s :
  run body (l1 ++ l2) s = s' ← run body l1 s; run body l2 s'.
Proof.
  revert s. induction l1 as [|x l1 IH]; intros s; simpl; [done|].
  destruct (body x s); simpl; [apply IH | done].
Qed.

Lemma run_ext {A St} (f g : A → St → option St) l s :
  (∀ x t, x ∈ l → f x t = g x t) → run f l s = run g l s.
Proof.
  revert s. induction l as [|x l IH]; intros s Hfg; simpl; [done|].
  rewrite Hfg by left. destruct (g x s); simpl; [|done].
  apply IH. intros. apply Hfg. by right.
Qed.

Lemma run_fmap {A B St} (f : A → B) (body : B → St → option St) l s :
  run (λ x, body (f x)) l s = run body (f <$> l) s.
Proof.
  revert s. induction l as [|x l IH]; intros s; simpl; [done|].
  destruct (body (f x) s); simpl; [apply IH | done].
Qed.

Lemma run_bind {A B St} (g : A → list B) (body : B → St → option St) l s :
  run (λ x, run body (g x)) l s = run body (l ≫= g) s.
Proof.
  revert s. induction l as [|x l IH]; intros s; simpl; [done|].
  rewrite run_app. destruct (run body (g x) s); simpl; [apply IH | done].
Qed.

(** ** Elementwise transforms *)

(** [binary_transform] terminates when the three buffers hold [size]
    elements, writes [func a[i] b[i]] at every index below [size] and leaves
    the rest of the output as it was. *)
Lemma binary_transform_spec {T1 T2} (a b : list T1) (c : list T2) size
    (func : T1 → T1 → T2) :
  0 ≤ size →
  size ≤ Z.of_nat (length a) → size ≤ Z.of_nat (length b) →
  size ≤ Z.of_nat (length c) →
  ∃ c', binary_transform a b c size func = Some c' ∧
    length c' = length c ∧
    (∀ i, 0 ≤ i < size →
       ∃ v1 v2, load a i = Some v1 ∧ load b i = Some v2 ∧
                load c' i = Some (func v1 v2)) ∧
    (∀ i, size ≤ i → load c' i = load c i).
Proof.
  intros Hsize Ha Hb Hc. unfold binary_transform.
  apply (for_range_inv (λ j (c' : list T2),
    length c' = length c ∧
    (∀ i, 0 ≤ i < j →
       ∃ v1 v2, load a i = Some v1 ∧ load b i = Some v2 ∧
                load c' i = Some (func v1 v2)) ∧
    (∀ i, j ≤ i → load c' i = load c i))); [done | |].
  - split_and!; [done | intros; lia | done].
  - intros j t Hj (Hlen & Hdone & Hrest).
    destruct (load_lt a j) as [v1 Hv1]; [lia|].
    destruct (load_lt b j) as [v2 Hv2]; [lia|].
    rewrite Hv1, Hv2. simpl. rewrite store_Some by lia.
    eexists. split; [done|]. split_and!.
    + by rewrite length_insert.
    + intros i Hi. destruct (decide (i = j)) as [->|Hne].
      * exists v1, v2. split_and!; [done..|]. apply load_insert_eq. lia.
      * destruct (Hdone i) as (w1 & w2 & ? & ? & ?); [lia|].
        exists w1, w2. split_and!; [done..|].
        rewrite load_insert_ne by lia. done.
    + intros i Hi. rewrite load_insert_ne by lia. apply Hrest. lia.
Qed.

(** C8: for buffers [a] and [b] of [size] elements of a fixed-width integer
    type, [add(a, b, c, size)] followed by [sub(c, b, c2, size)] leaves in
    [c2] exactly the elements of [a], the arithmetic being modulo [2^bits]. *)
Theorem add_then_sub_restores (ty : int_type) (a b c c2 : list Z) (size : Z) :
  size = Z.of_nat (length a) → size = Z.of_nat (length b) →
  size ≤ Z.of_nat (length c) → size ≤ Z.of_nat (length c2) →
  Forall (in_range ty) a →
  ∃ c' c2',
    add ty a b c size = Some c' ∧
    sub ty c' b c2 size = Some c2' ∧
    (∀ i, 0 ≤ i < size → load c2' i = load a i) ∧
    take (length a) c2' = a.
Proof.
  intros Ha Hb Hc Hc2 Hrange. unfold add, sub.
  destruct (binary_transform_spec a b c size (λ v1 v2, norm ty (v1 + v2)))
    as (c' & Hadd & Hlen' & Hc' & _); [lia..|].
  destruct (binary_transform_spec c' b c2 size (λ v1 v2, norm ty (v1 - v2)))
    as (c2' & Hsub & Hlen2 & Hc2' & _); [lia..|].
  exists c', c2'. split_and!; [done..| |].
  - intros i Hi.
    destruct (Hc' i Hi) as (v1 & v2 & Hv1 & Hv2 & Hs).
    destruct (Hc2' i Hi) as (w1 & w2 & Hw1 & Hw2 & Hd).
    rewrite Hd, Hv1. f_equal.
    assert (w1 = norm ty (v1 + v2)) as -> by congruence.
    assert (w2 = v2) as -> by congruence.
    apply norm_add_sub.
    apply load_Some in Hv1 as [_ Hv1].
    by eapply Forall_lookup_1 in Hrange.
  - apply take_load_ext. intros i Hi.
    destruct (Hc' i) as (v1 & v2 & Hv1 & Hv2 & Hs); [lia|].
    destruct (Hc2' i) as (w1 & w2 & Hw1 & Hw2 & Hd); [lia|].
    rewrite Hd, Hv1. f_equal.
    assert (w1 = norm ty (v1 + v2)) as -> by congruence.
    assert (w2 = v2) as -> by congruence.
    apply norm_add_sub.
    apply load_Some in Hv1 as [_ Hv1].
    by eapply Forall_lookup_1 in Hrange.
Qed.

(** ** Reductions *)

Lemma accumulate_replicate ty (n : nat) v init :
  accumulate ty (replicate n v) (Z.of_nat n) init
  = Some (if decide (n = 0%nat) then init
          else norm ty (init + Z.of_nat n * v)).
Proof.
  unfold accumulate.
  destruct (for_range_inv (λ j acc,
      acc = if decide (j = 0) then init else norm ty (init + j * v))
    (λ i acc, v' ← load (replicate n v) i; Some (norm ty (acc + v')))
    (Z.of_nat n) init) as (s & Hs & ->); [lia | done | |].
  - intros j acc Hj ->.
    assert (load (replicate n v) j = Some v) as ->.
    { apply load_Some. split; [lia|]. apply lookup_replicate_2. lia. }
    simpl. eexists. split; [done|].
    rewrite (decide_False (P := j + 1 = 0)) by lia.
    destruct (decide (j = 0)) as [->|].
    + f_equal. lia.
    + rewrite norm_add_l. f_equal. lia.
  - rewrite Hs. f_equal.
    destruct (decide (n = 0%nat)); [by rewrite decide_True by lia|].
    by rewrite decide_False by lia.
Qed.

(** For [n] copies of [v], [sum] is [n * v] converted to the element type:
    [n * v] itself when that is a value of the type. *)
Lemma sum_replicate ty (n : nat) v :
  sum ty (replicate n v) (Z.of_nat n) = Some (norm ty (Z.of_nat n * v)).
Proof.
  unfold sum. rewrite accumulate_replicate.
  destruct (decide (n = 0%nat)) as [->|]; [done|].
  by rewrite norm_add_l.
Qed.

Lemma max_value_lt_size_max ty :
  (bits ty ≤ 64)%positive → max_value ty < size_max.
Proof.
  intros Hb. unfold max_value, size_max.
  assert (modulus ty ≤ 2 ^ 64).
  { unfold modulus. apply Z.pow_le_mono_r; lia. }
  pose proof (modulus_half ty). pose proof (half_modulus_pos ty).
  destruct (signed ty); lia.
Qed.

(** Where the sum is not negative, [mean] is the truncating quotient of the
    sum by the size. *)
Lemma mean_of_nonneg_sum ty array size s :
  (bits ty ≤ 64)%positive → 0 < size →
  sum ty array size = Some s → 0 ≤ s → in_range ty s →
  mean ty array size = Some (s ÷ size).
Proof.
  intros Hb Hsize Hsum Hs Hr. unfold mean. rewrite Hsum. simpl.
  rewrite decide_False by lia. f_equal.
  pose proof (max_value_lt_size_max ty Hb).
  rewrite wrap_small by (unfold in_range in Hr; lia).
  rewrite Z.quot_div_nonneg by lia.
  apply norm_id. unfold in_range in *.
  assert (0 ≤ s / size) by (apply Z.div_pos; lia).
  assert (s / size ≤ s) by (apply Z.div_le_upper_bound; nia).
  assert (min_value ty ≤ 0).
  { unfold min_value. pose proof (half_modulus_pos ty).
    destruct (signed ty); lia. }
  lia.
Qed.

(** [mean] of [n > 0] copies of a value [v ≥ 0] whose [n]-fold sum is a
    value of the type is [v]. *)
Lemma mean_replicate_nonneg ty (n : nat) v :
  (bits ty ≤ 64)%positive → (0 < n)%nat → 0 ≤ v →
  in_range ty (Z.of_nat n * v) →
  mean ty (replicate n v) (Z.of_nat n) = Some v.
Proof.
  intros Hb Hn Hv Hr.
  rewrite (mean_of_nonneg_sum ty _ _ (Z.of_nat n * v)); [| done | lia | | nia | done].
  - f_equal. rewrite Z.mul_comm. apply Z.quot_mul. lia.
  - rewrite sum_replicate. f_equal. by apply norm_id.
Qed.

(** C2: on the three-element [int] buffer [-3, -3, -3] the sum is [-9], its
    truncating quotient by [3] is [-3], and [mean] returns [1431655762]: the
    sum is converted to the unsigned type of [size] before the division. *)
Theorem mean_of_negative_values :
  sum int32_t [-3; -3; -3] 3 = Some (-9) ∧
  (-9) ÷ 3 = -3 ∧
  mean int32_t [-3; -3; -3] 3 = Some 1431655762.
Proof. by vm_compute. Qed.

(** The loop of [std::max_element]. *)
Lemma max_element_spec (array : list Z) (size : Z) :
  size = Z.of_nat (length array) → 0 < size →
  ∃ m v,
    max_element array size = Some m ∧
    0 ≤ m < size ∧
    load array m = Some v ∧
    (∀ j w, load array j = Some w → w ≤ v) ∧
    (∀ j w, 0 ≤ j < m → load array j = Some w → w < v).
Proof.
  intros Hsize Hpos. unfold max_element. rewrite decide_False by lia.
  destruct (for_loop_inv (λ j r,
      0 ≤ r < j ∧ ∃ v, load array r = Some v ∧
        (∀ i w, 0 ≤ i < j → load array i = Some w → w ≤ v) ∧
        (∀ i w, 0 ≤ i < r → load array i = Some w → w < v))
    (λ i result,
       r ← load array result; v ← load array i;
       Some (if bool_decide (r < v) then i else result))
    (Z.to_nat (size - 1)) 1 0) as (m & Hm & Hrange & v & Hv & Hmax & Hfirst).
  - split; [lia|]. destruct (load_lt array 0) as [v Hv]; [lia|].
    exists v. split_and!; [done | | intros; lia].
    intros i w Hi Hw. assert (i = 0) as -> by lia. by simplify_eq.
  - intros j r Hj (Hr & v & Hv & Hmax & Hfirst).
    destruct (load_lt array j) as [w Hw]; [lia|].
    rewrite Hv, Hw. simpl. eexists. split; [done|].
    case_bool_decide.
    + split; [lia|]. exists w. split_and!; [done | |].
      * intros i u Hi Hu. destruct (decide (i = j)) as [->|].
        -- by simplify_eq.
        -- specialize (Hmax i u ltac:(lia) Hu). lia.
      * intros i u Hi Hu. specialize (Hmax i u ltac:(lia) Hu). lia.
    + split; [lia|]. exists v. split_and!; [done | | done].
      intros i u Hi Hu. destruct (decide (i = j)) as [->|].
      * simplify_eq. lia.
      * apply (Hmax i); [lia | done].
  - exists m, v. split_and!; [done | lia.. | done | | done].
    intros j w Hw. apply (Hmax j); [|done].
    apply load_Some_lt in Hw. lia.
Qed.

(** C4: on a non-empty buffer [max_element] returns the lowest index that
    holds the greatest value, [max] returns the value at that index, and
    [max_element([3,5,5,2]) = 1]. *)
Theorem max_element_first_maximum (array : list Z) (size : Z) :
  size = Z.of_nat (length array) → 0 < size →
  (∃ m v,
     max_element array size = Some m ∧
     max array size = Some v ∧
     0 ≤ m < size ∧
     load array m = Some v ∧
     (∀ j w, load array j = Some w → w ≤ v) ∧
     (∀ j, load array j = Some v → m ≤ j)) ∧
  max_element [3; 5; 5; 2] 4 = Some 1.
Proof.
  intros Hsize Hpos. split; [|done].
  destruct (max_element_spec array size Hsize Hpos)
    as (m & v & Hm & Hrange & Hv & Hmax & Hfirst).
  exists m, v. split_and!; [done | | lia.. | done | done |].
  - unfold max. by rewrite Hm.
  - intros j Hj. destruct (decide (m ≤ j)); [done|].
    pose proof (load_Some_lt _ _ _ Hj).
    specialize (Hfirst j v ltac:(lia) Hj). lia.
Qed.

(** ** Top-k *)

Lemma load_total (x : list Z) i :
  0 ≤ i < Z.of_nat (length x) → load x i = Some (x !!! Z.to_nat i).
Proof.
  intros Hi. apply load_Some. split; [lia|].
  apply list_lookup_lookup_total_lt. lia.
Qed.

Lemma min_value_nonpos ty : min_value ty ≤ 0.
Proof.
  unfold min_value. pose proof (half_modulus_pos ty).
  destruct (signed ty); lia.
Qed.

(** A comparison of two indices into [x] has a result. *)
Lemma comp_Some (x : list Z) i1 i2 :
  0 ≤ i1 < Z.of_nat (length x) → 0 ≤ i2 < Z.of_nat (length x) →
  comp x i1 i2
  = Some (bool_decide (x !!! Z.to_nat i2 < x !!! Z.to_nat i1)).
Proof.
  intros H1 H2. unfold comp. by rewrite !load_total by done.
Qed.

(** The comparison that [topk] hands to [std::partial_sort] meets the
    requirement of the library on a range of indices into [x]. *)
Lemma comp_strict_weak_order_on (x l : list Z) :
  (∀ i, i ∈ l → 0 ≤ i < Z.of_nat (length x)) →
  strict_weak_order_on l (comp x).
Proof.
  intros Hl. split_and!.
  - intros a b Ha Hb. rewrite comp_Some by auto. by eexists.
  - intros a Ha. rewrite comp_Some by auto. f_equal.
    apply bool_decide_eq_false. lia.
  - intros a b c Ha Hb Hc. rewrite !comp_Some by auto.
    intros [= ?%bool_decide_eq_true] [= ?%bool_decide_eq_true].
    f_equal. apply bool_decide_eq_true. lia.
  - intros a b c Ha Hb Hc. rewrite !comp_Some by auto.
    intros [= ?%bool_decide_eq_false] [= ?%bool_decide_eq_false]
           [= ?%bool_decide_eq_false] [= ?%bool_decide_eq_false].
    split; f_equal; apply bool_decide_eq_false; lia.
Qed.

(** With a counter that stays in the range of [int] and of the index type,
    [iota] writes consecutive values. *)
Lemma iota_spec (ity : int_type) (indices : list Z) (size value : Z) :
  0 ≤ size ≤ Z.of_nat (length indices) → 0 ≤ value →
  value + size ≤ max_value int32_t → value + size - 1 ≤ max_value ity →
  iota ity indices size value
  = Some (seqZ value size ++ drop (Z.to_nat size) indices).
Proof.
  intros Hsize Hvalue Hint Hity. unfold iota.
  destruct (for_range_inv
      (λ j (st : list Z * Z),
         st = (seqZ value j ++ drop (Z.to_nat j) indices, value + j))
      (λ j '(buf, value),
         buf' ← store buf j (norm ity value);
         Some (buf', norm int32_t (value + 1)))
      size (indices, value))
    as (st & -> & ->); [lia | by rewrite Z.add_0_r | | done].
  intros j t Hj ->.
  assert (length (seqZ value j) = Z.to_nat j) as Hlen by apply length_seqZ.
  destruct (lookup_lt_is_Some_2 indices (Z.to_nat j)) as [y Hy]; [lia|].
  rewrite store_Some.
  2:{ rewrite length_app, length_drop, Hlen. lia. }
  pose proof (min_value_nonpos ity). pose proof (min_value_nonpos int32_t).
  rewrite !norm_id by (unfold in_range; lia).
  eexists. split; [done|]. f_equal; [|lia].
  replace (Z.to_nat j) with (length (seqZ value j) + 0)%nat at 1 by lia.
  rewrite insert_app_r, (drop_S _ _ _ Hy). simpl.
  replace (j + 1) with (Z.of_nat (S (Z.to_nat j))) by lia.
  rewrite seqZ_S, Z2Nat.id, <- (assoc_L (++)) by lia. simpl.
  do 3 f_equal. lia.
Qed.


(** The reference library meets the guarantee of [std::partial_sort]. *)

Lemma not_before_total {A} (comp : A → A → bool) :
  strict_weak_order comp → Total (not_before comp).
Proof.
  intros (Hirr & Htrans & _) u v. unfold not_before.
  destruct (comp v u) eqn:Hvu; [|by left].
  destruct (comp u v) eqn:Huv; [|by right].
  pose proof (Htrans _ _ _ Huv Hvu) as Huu. by rewrite Hirr in Huu.
Qed.

Lemma not_before_transitive {A} (comp : A → A → bool) :
  strict_weak_order comp → Transitive (not_before comp).
Proof.
  intros (Hirr & Htrans & Heqv) u v w. unfold not_before. intros Hvu Hwv.
  destruct (comp w u) eqn:Hwu; [|done].
  destruct (comp u v) eqn:Huv.
  { pose proof (Htrans _ _ _ Hwu Huv). congruence. }
  destruct (comp v w) eqn:Hvw.
  { pose proof (Htrans _ _ _ Hvw Hwu). congruence. }
  destruct (Heqv u v w) as [_ ?]; congruence.
Qed.

Lemma StronglySorted_lookup {A} (R : relation A) (l : list A) p q u v :
  StronglySorted R l → (p < q)%nat →
  l !! p = Some u → l !! q = Some v → R u v.
Proof.
  intros Hsorted. revert p q.
  induction Hsorted as [|a l Hl IH Hall]; intros p q Hpq Hu Hv; [done|].
  destruct q as [|q]; [lia|]. destruct p as [|p]; simpl in *.
  - simplify_eq. eapply Forall_lookup_1 in Hall; done.
  - apply (IH p q); [lia | done..].
Qed.

Lemma within_elem (l : list Z) cmp u v :
  u ∈ l → v ∈ l → within l cmp u v = default false (cmp u v).
Proof. intros Hu Hv. unfold within. by rewrite !decide_True. Qed.

Lemma within_true (l : list Z) cmp u v :
  within l cmp u v = true ↔
  u ∈ l ∧ (v ∈ l → cmp u v = Some true).
Proof.
  unfold within. destruct (decide (u ∈ l)); [|split; [done | tauto]].
  destruct (decide (v ∈ l)); [|tauto].
  destruct (cmp u v) as [[]|]; simpl; split; try done; try tauto.
  - intros [_ Hc]. by specialize (Hc ltac:(done)).
  - intros [_ Hc]. by specialize (Hc ltac:(done)).
Qed.

(** A comparison that meets the requirement on a range is, as the range
    sees it, a strict weak ordering of all values. *)
Lemma within_strict_weak_order (l : list Z) cmp :
  strict_weak_order_on l cmp → strict_weak_order (within l cmp).
Proof.
  intros (Hdef & Hirr & Htrans & Heqv).
  assert (∀ u v, u ∈ l → v ∈ l →
            within l cmp u v = false → cmp u v = Some false) as Hfalse.
  { intros u v Hu Hv. rewrite within_elem by done.
    destruct (Hdef u v Hu Hv) as [[] ->]; done. }
  assert (∀ u v, within l cmp u v = false → within l cmp v u = false →
            (u ∈ l ↔ v ∈ l)) as Hside.
  { intros u v Huv Hvu. unfold within in *.
    destruct (decide (u ∈ l)), (decide (v ∈ l)); done. }
  split_and!.
  - intros a. destruct (within l cmp a a) eqn:Ha; [|done].
    apply within_true in Ha as [Hin Ha]. rewrite Hirr in Ha by done.
    by specialize (Ha Hin).
  - intros a b c [Ha Hab]%within_true [Hb Hbc]%within_true.
    apply within_true. split; [done|]. intros Hc. eauto.
  - intros a b c Hab Hba Hbc Hcb.
    pose proof (Hside a b Hab Hba) as Hsab.
    pose proof (Hside b c Hbc Hcb) as Hsbc.
    destruct (decide (b ∈ l)) as [Hb|Hb].
    + assert (a ∈ l) as Ha by tauto. assert (c ∈ l) as Hc by tauto.
      destruct (Heqv a b c) as [Hac Hca]; auto.
      rewrite !within_elem by done. by rewrite Hac, Hca.
    + unfold within. rewrite !decide_False by tauto. done.
Qed.

Lemma partial_sort_ref_contract : partial_sort_contract partial_sort_ref.
Proof.
  intros cmp k l Hswo Hk. unfold partial_sort_ref.
  rewrite decide_True.
  2:{ split; [done|]. unfold comparable. rewrite Forall_forall. intros u Hu.
      rewrite Forall_forall. intros v Hv. by apply Hswo. }
  eexists. split; [done|].
  pose proof (merge_sort_Permutation (not_before (within l cmp)) l) as Hperm.
  split; [done|].
  intros p q u v _ Hpq Hu Hv.
  pose proof (within_strict_weak_order l cmp Hswo) as Hw.
  pose proof (not_before_total _ Hw).
  pose proof (not_before_transitive _ Hw).
  assert (not_before (within l cmp) u v) as Huv.
  { apply (StronglySorted_lookup (not_before (within l cmp))
             (merge_sort (not_before (within l cmp)) l) p q u v); [|done..].
    by apply StronglySorted_merge_sort. }
  assert (u ∈ l) as Hul.
  { rewrite <- Hperm. by eapply list_elem_of_lookup_2. }
  assert (v ∈ l) as Hvl.
  { rewrite <- Hperm. by eapply list_elem_of_lookup_2. }
  unfold not_before in Huv. rewrite within_elem in Huv by done.
  destruct Hswo as (Hdef & _).
  destruct (Hdef v u Hvl Hul) as [[] Hb]; rewrite Hb in *; done.
Qed.

(** What [topk] leaves in the index buffer: the range [0 .. size-1]
    rearranged, in front of the entries it does not reach; none of the first
    [k] entries holds a smaller value than an entry after it. *)
Lemma topk_outcome partial_sort (ity : int_type) (x indices : list Z)
    (k size : Z) :
  partial_sort_contract partial_sort →
  0 ≤ k ≤ size → size = Z.of_nat (length x) →
  size ≤ Z.of_nat (length indices) →
  size ≤ max_value int32_t → size - 1 ≤ max_value ity →
  ∃ range,
    topk partial_sort ity x indices k size
    = Some (range ++ drop (Z.to_nat size) indices) ∧
    range ≡ₚ seqZ 0 size ∧
    length range = Z.to_nat size ∧
    (∀ i, i ∈ range ↔ 0 ≤ i < size) ∧
    ∀ (p q : nat) (u v : Z),
      (p < Z.to_nat k)%nat → (p < q)%nat →
      range !! p = Some u → range !! q = Some v →
      x !!! Z.to_nat v ≤ x !!! Z.to_nat u.
Proof.
  intros Hps Hk Hx Hcap Hint Hity. unfold topk.
  rewrite iota_spec by lia. simpl.
  rewrite take_app_length', drop_app_length' by (by rewrite length_seqZ).
  destruct (Hps (comp x) (Z.to_nat k) (seqZ 0 size))
    as (range & -> & Hperm & Hord).
  { apply comp_strict_weak_order_on. intros i. rewrite elem_of_seqZ. lia. }
  { rewrite length_seqZ. lia. }
  assert (∀ i, i ∈ range ↔ 0 ≤ i < size) as Hrange.
  { intros i. rewrite Hperm, elem_of_seqZ. lia. }
  exists range. simpl. split_and!; [done | done | | done |].
  - by rewrite Hperm, length_seqZ.
  - intros p q u v Hp Hq Hu Hv.
    pose proof (Hord p q u v Hp Hq Hu Hv) as Hc.
    rewrite comp_Some in Hc.
    + injection Hc as Hc%bool_decide_eq_false. lia.
    + rewrite <- Hx. apply Hrange. by eapply list_elem_of_lookup_2.
    + rewrite <- Hx. apply Hrange. by eapply list_elem_of_lookup_2.
Qed.





#[local] Instance at_least_total : Total at_least.
Proof. intros a b. unfold at_least. lia. Qed.

#[local] Instance at_least_transitive : Transitive at_least.
Proof. intros a b c. unfold at_least. lia. Qed.



(** ** Quantization *)










(** ** Arithmetic modulo [2^64] *)

#[local] Instance eqw_equivalence : Equivalence eqw.
Proof.
  unfold eqw. split.
  - by intros x.
  - by intros x y.
  - intros x y z. congruence.
Qed.

#[local] Instance eqw_add : Proper (eqw ==> eqw ==> eqw) Z.add.
Proof.
  unfold eqw, wrap. intros x x' Hx y y' Hy.
  rewrite (Z.add_mod x), (Z.add_mod x') by done. by rewrite Hx, Hy.
Qed.

#[local] Instance eqw_mul : Proper (eqw ==> eqw ==> eqw) Z.mul.
Proof.
  unfold eqw, wrap. intros x x' Hx y y' Hy.
  rewrite (Z.mul_mod x), (Z.mul_mod x') by done. by rewrite Hx, Hy.
Qed.

Lemma wrap_eqw x : eqw (wrap x) x.
Proof. unfold eqw, wrap. apply Z.mod_mod. done. Qed.

(** Proves [conv e = conv e'] for a conversion [conv] whose kernel is the
    congruence [R], given [unwrap : R (conv x) x]: [e] and [e'] are sums and
    products that are equal as polynomials once the conversions inside them
    are dropped. *)
Ltac modular_ring R unwrap :=
  match goal with |- ?conv ?x = ?conv ?y => change (R x y) end;
  rewrite ?unwrap;
  match goal with |- R ?x ?y => replace x with y by ring end;
  reflexivity.

Lemma mul_sz_mul_sz x y z :
  0 ≤ x * y * z < size_max → mul_sz (mul_sz x y) z = x * y * z.
Proof.
  intros Hr. rewrite <- (wrap_small (x * y * z)) by done.
  unfold mul_sz. modular_ring eqw wrap_eqw.
Qed.

(** ** Batched gemm *)

Lemma slice_offset_bound i batch_size u v :
  0 ≤ i < batch_size → 0 ≤ u → 0 ≤ v → batch_size * u * v < size_max →
  0 ≤ i * u * v < size_max.
Proof.
  intros Hi Hu Hv Hb.
  assert (0 ≤ u * v) by (by apply Z.mul_nonneg_nonneg).
  assert (i * (u * v) ≤ batch_size * (u * v))
    by (apply Z.mul_le_mono_nonneg_r; lia).
  assert (0 ≤ i * (u * v)) by (apply Z.mul_nonneg_nonneg; lia).
  rewrite <- !Z.mul_assoc in *. lia.
Qed.

Lemma gemm_batch_run {In Out Mem}
    (gemm : Z → Z → bool → bool → Z → Z → Z → In → Out → Z → Mem → option Mem)
    (a b : Z) (ta tb : bool) (batch_size m n k : Z) (alpha : In) (beta : Out)
    (c : Z) (mem : Mem) :
  0 ≤ m → 0 ≤ n → 0 ≤ k →
  batch_size * m * k < size_max → batch_size * k * n < size_max →
  batch_size * m * n < size_max →
  gemm_batch gemm a b ta tb batch_size m n k alpha beta c mem
  = run (λ i, gemm (a + i * m * k) (b + i * k * n) ta tb m n k alpha beta
                (c + i * m * n))
      (seqZ 0 batch_size) mem.
Proof.
  intros Hm Hn Hk Ha Hb Hc. unfold gemm_batch. rewrite for_range_run.
  apply run_ext. intros i t [Hi0 Hi]%elem_of_seqZ.
  rewrite !mul_sz_mul_sz; [done | by eapply slice_offset_bound..].
Qed.

(** C5: whatever the backend, [gemm_batch] is the sequence of the calls
    [gemm(a + i*m*k, b + i*k*n, ..., c + i*m*n)] for [i = 0, ...,
    batch_size - 1] in this order, with the flags, dimensions and scaling
    factors it was given; a backend that records its calls sees exactly
    these; and with [batch_size = 1] it is the single call
    [gemm(a, b, ..., c)]. *)
Theorem gemm_batch_slices {In Out Mem}
    (gemm : Z → Z → bool → bool → Z → Z → Z → In → Out → Z → Mem → option Mem)
    (a b : Z) (ta tb : bool) (batch_size m n k : Z) (alpha : In) (beta : Out)
    (c : Z) (mem : Mem) :
  0 ≤ m → 0 ≤ n → 0 ≤ k →
  batch_size * m * k < size_max → batch_size * k * n < size_max →
  batch_size * m * n < size_max →
  gemm_batch gemm a b ta tb batch_size m n k alpha beta c mem
  = run (λ i, gemm (a + i * m * k) (b + i * k * n) ta tb m n k alpha beta
                (c + i * m * n))
      (seqZ 0 batch_size) mem ∧
  (∀ (alpha' beta' : Z) (log : list gemm_call),
     gemm_batch gemm_record a b ta tb batch_size m n k alpha' beta' c log
     = Some (log ++ ((λ i, (a + i * m * k, b + i * k * n, ta, tb, m, n, k,
                             alpha', beta', c + i * m * n))
                       <$> seqZ 0 batch_size))) ∧
  gemm_batch gemm a b ta tb 1 m n k alpha beta c mem
  = gemm a b ta tb m n k alpha beta c mem.
Proof.
  intros Hm Hn Hk Ha Hb Hc. split_and!.
  - by apply gemm_batch_run.
  - intros alpha' beta' log. rewrite gemm_batch_run by done.
    generalize (seqZ 0 batch_size). intros l. revert log.
    induction l as [|i l IH]; intros log; simpl.
    + by rewrite (right_id_L [] (++)).
    + rewrite IH, <- (assoc_L (++)). done.
  - unfold gemm_batch, for_range. simpl.
    assert (∀ u v, mul_sz (mul_sz 0 u) v = 0) as Hzero by done.
    rewrite !Hzero, !Z.add_0_r.
    by destruct (gemm _ _ _ _ _ _ _ _ _ _ _).
Qed.

(** ** Copy loops *)

(** The loop nest over all multi-indices of [dims], outermost axis first. *)
Lemma loop_nest_run {St} (dims : list Z) (body : list Z → St → option St) s :
  loop_nest dims body s = run body (multi_indices dims) s.
Proof.
  revert body s. induction dims as [|d dims IH]; intros body s.
  - simpl. by destruct (body [] s).
  - simpl. rewrite for_range_run.
    rewrite <- (run_bind (λ i, cons i <$> multi_indices dims) body).
    apply run_ext. intros i t _. rewrite IH. apply run_fmap.
Qed.

Lemma copy_elem_Some {T} (a : list T) (p : Z * Z) (b : list T) v :
  load a p.2 = Some v → 0 ≤ p.1 < Z.of_nat (length b) →
  copy_elem a p b = Some (<[Z.to_nat p.1 := v]> b).
Proof. intros Hv Hp. unfold copy_elem. rewrite Hv. by apply store_Some. Qed.

(** A sequence of element copies whose indices are within the buffers runs
    to its end, changes nothing but the destinations, and, when no
    destination occurs twice, leaves at each destination the source
    element. *)
Lemma run_copy_spec {T} (a : list T) (ps : list (Z * Z)) (b : list T) :
  (∀ p, p ∈ ps →
     0 ≤ p.2 < Z.of_nat (length a) ∧ 0 ≤ p.1 < Z.of_nat (length b)) →
  ∃ b', run (copy_elem a) ps b = Some b' ∧
    length b' = length b ∧
    (∀ j, j ∉ ps.*1 → load b' j = load b j) ∧
    (NoDup ps.*1 → ∀ p, p ∈ ps → load b' p.1 = load a p.2).
Proof.
  revert b. induction ps as [|p ps IH]; intros b Hin.
  - exists b. split_and!; [done..|]. intros _ p Hp. by apply elem_of_nil in Hp.
  - destruct (Hin p) as [Hsrc Hdst]; [by left|].
    destruct (load_lt a p.2 Hsrc) as [v Hv].
    destruct (IH (<[Z.to_nat p.1 := v]> b))
      as (b' & Hrun & Hlen & Hframe & Hcopy).
    { intros q Hq. rewrite length_insert. apply Hin. by right. }
    exists b'. split_and!.
    + cbn [run]. by rewrite (copy_elem_Some a p b v).
    + by rewrite Hlen, length_insert.
    + intros j [Hj1 Hj2]%not_elem_of_cons.
      rewrite Hframe by done. apply load_insert_ne; [lia | done].
    + intros [Hfresh Hnodup]%NoDup_cons q [->|Hq]%elem_of_cons.
      * rewrite Hframe by done. rewrite Hv. by apply load_insert_eq.
      * by apply Hcopy.
Qed.

(** ** Multi-indices and row-major order *)

Lemma elem_of_multi_indices dims idx :
  idx ∈ multi_indices dims ↔ multi_index dims idx.
Proof.
  unfold multi_index. revert idx.
  induction dims as [|d dims IH]; intros idx; simpl.
  - rewrite list_elem_of_singleton. split; [by intros ->|].
    apply Forall2_nil_inv_r.
  - rewrite list_elem_of_bind. split.
    + intros (i & (idx' & -> & Hidx')%list_elem_of_fmap & Hi%elem_of_seqZ).
      constructor; [lia | by apply IH].
    + intros (i & idx' & Hi & Hidx' & ->)%Forall2_cons_inv_r.
      exists i. split.
      * apply list_elem_of_fmap. exists idx'. split; [done | by apply IH].
      * apply elem_of_seqZ. lia.
Qed.

Lemma NoDup_multi_indices dims : NoDup (multi_indices dims).
Proof.
  induction dims as [|d dims IH]; simpl.
  - apply NoDup_singleton.
  - apply NoDup_bind; [| | apply NoDup_seqZ].
    + intros i1 i2 idx _ _ (? & -> & _)%list_elem_of_fmap
        (? & [= -> _] & _)%list_elem_of_fmap. done.
    + intros i _. by apply (NoDup_fmap_2 _).
Qed.

Lemma row_major_bound shape idx :
  multi_index shape idx → 0 ≤ row_major shape idx < product shape.
Proof.
  unfold multi_index. intros Hidx.
  induction Hidx as [|i d idx shape Hi Hidx IH]; simpl; [lia|].
  fold (product shape). nia.
Qed.

Lemma row_major_inj shape idx idx' :
  multi_index shape idx → multi_index shape idx' →
  row_major shape idx = row_major shape idx' → idx = idx'.
Proof.
  unfold multi_index. intros Hidx. revert idx'.
  induction Hidx as [|i d idx shape Hi Hidx IH]; intros idx' Hidx' Heq.
  - by apply Forall2_nil_inv_r in Hidx'.
  - apply Forall2_cons_inv_r in Hidx' as (i' & idx'' & Hi' & Hidx' & ->).
    simpl in Heq.
    pose proof (row_major_bound shape idx Hidx).
    pose proof (row_major_bound shape idx'' Hidx').
    assert (i = i') as -> by nia.
    f_equal. apply IH; [done | lia].
Qed.

Lemma product_Permutation shape shape' :
  shape ≡ₚ shape' → product shape = product shape'.
Proof.
  unfold product. intros Hp.
  induction Hp as [|d l l' _ IH|d d' l|l l' l'' _ IH1 _ IH2]; simpl;
    [done | by rewrite IH | lia | congruence].
Qed.

(** ** Permuted axes *)

Lemma product_permute perm dims :
  is_permutation (Z.of_nat (length dims)) perm →
  product (permute perm dims) = product dims.
Proof.
  unfold is_permutation. intros Hperm.
  rewrite <- (permute_identity dims) at 2.
  apply product_Permutation. unfold permute. by rewrite Hperm.
Qed.

Lemma multi_index_permute perm dims idx :
  is_permutation (Z.of_nat (length dims)) perm →
  multi_index dims idx →
  multi_index (permute perm dims) (permute perm idx).
Proof.
  unfold is_permutation, multi_index, permute. intros Hperm Hidx.
  apply Forall2_fmap, Forall_Forall2_diag, Forall_forall.
  intros p Hp. rewrite Hperm in Hp. apply elem_of_seqZ in Hp. simpl.
  pose proof (Forall2_length _ _ _ Hidx) as Hlen.
  destruct (lookup_lt_is_Some_2 idx (Z.to_nat p)) as [i Hi]; [lia|].
  destruct (lookup_lt_is_Some_2 dims (Z.to_nat p)) as [d Hd]; [lia|].
  rewrite (list_lookup_total_correct _ _ _ Hi).
  rewrite (list_lookup_total_correct _ _ _ Hd).
  by eapply Forall2_lookup_lr in Hidx.
Qed.

Lemma permute_inj perm (idx idx' : list Z) :
  is_permutation (Z.of_nat (length idx)) perm →
  length idx = length idx' →
  permute perm idx = permute perm idx' → idx = idx'.
Proof.
  unfold is_permutation. intros Hperm Hlen Heq.
  apply list_eq. intros n.
  destruct (decide (n < length idx)%nat) as [Hn|Hn].
  - assert (Z.of_nat n ∈ perm) as [q Hq]%list_elem_of_lookup_1.
    { rewrite Hperm. apply elem_of_seqZ. lia. }
    assert (permute perm idx !! q = permute perm idx' !! q) as Hq'
      by by rewrite Heq.
    unfold permute in Hq'. rewrite !list_lookup_fmap, Hq in Hq'.
    simpl in Hq'. rewrite Nat2Z.id in Hq'. injection Hq' as Hq'.
    rewrite !list_lookup_lookup_total_lt by lia. by f_equal.
  - rewrite !(proj2 (lookup_ge_None _ _)) by lia. done.
Qed.

(** ** Transposes *)

(** A loop nest over [dims] that copies [a[src idx]] to [b[dst idx]], where
    [src] is the row-major index over [dims] and [dst] the row-major index
    of the permuted multi-index over the permuted extents, both as computed
    in [size_t]. *)
Lemma copy_nest_spec {T} (a b : list T) (dims perm : list Z)
    (src dst : list Z → Z) :
  is_permutation (Z.of_nat (length dims)) perm →
  product dims < size_max →
  product dims ≤ Z.of_nat (length a) → product dims ≤ Z.of_nat (length b) →
  (∀ idx, multi_index dims idx → src idx = wrap (row_major dims idx)) →
  (∀ idx, multi_index dims idx →
     dst idx = wrap (row_major (permute perm dims) (permute perm idx))) →
  ∃ b',
    loop_nest dims (λ idx, copy_elem a (dst idx, src idx)) b = Some b' ∧
    length b' = length b ∧
    (∀ idx, multi_index dims idx →
       ∃ v, load a (row_major dims idx) = Some v ∧
            load b' (row_major (permute perm dims) (permute perm idx))
            = Some v) ∧
    (∀ j, product dims ≤ j → load b' j = load b j).
Proof.
  intros Hperm Hmax Ha Hb Hsrc Hdst.
  assert (∀ idx, multi_index dims idx →
            src idx = row_major dims idx ∧
            0 ≤ row_major dims idx < product dims) as Hsrc'.
  { intros idx Hidx. pose proof (row_major_bound _ _ Hidx).
    rewrite Hsrc, wrap_small by (done || lia). done. }
  assert (∀ idx, multi_index dims idx →
            dst idx = row_major (permute perm dims) (permute perm idx) ∧
            0 ≤ row_major (permute perm dims) (permute perm idx)
              < product dims) as Hdst'.
  { intros idx Hidx.
    pose proof (row_major_bound _ _
                  (multi_index_permute perm dims idx Hperm Hidx)) as Hr.
    rewrite product_permute in Hr by done.
    rewrite Hdst, wrap_small by (done || lia). done. }
  rewrite loop_nest_run.
  rewrite (run_fmap (λ idx, (dst idx, src idx)) (copy_elem a)).
  destruct (run_copy_spec a ((λ idx, (dst idx, src idx))
                               <$> multi_indices dims) b)
    as (b' & Hrun & Hlen & Hframe & Hcopy).
  { intros p (idx & -> & Hidx%elem_of_multi_indices)%list_elem_of_fmap.
    destruct (Hsrc' idx Hidx) as [-> ?].
    destruct (Hdst' idx Hidx) as [-> ?]. simpl. lia. }
  exists b'. split_and!; [done | done | |].
  - intros idx Hidx.
    destruct (Hsrc' idx Hidx) as [Hs Hsr].
    destruct (Hdst' idx Hidx) as [Hd Hdr].
    destruct (load_lt a (row_major dims idx)) as [v Hv]; [lia|].
    exists v. split; [done|].
    rewrite <- Hv, <- Hs, <- Hd.
    refine (Hcopy _ (dst idx, src idx) _).
    + rewrite <- list_fmap_compose. apply NoDup_fmap_2_strong;
        [|apply NoDup_multi_indices].
      intros i1 i2 Hi1%elem_of_multi_indices Hi2%elem_of_multi_indices.
      simpl. intros Heq.
      destruct (Hdst' i1 Hi1) as [Hd1 _]. destruct (Hdst' i2 Hi2) as [Hd2 _].
      rewrite Hd1, Hd2 in Heq.
      apply row_major_inj in Heq; [|by apply multi_index_permute..].
      apply (permute_inj perm); [|by rewrite (Forall2_length _ _ _ Hi1),
                                     (Forall2_length _ _ _ Hi2) | done].
      by rewrite (Forall2_length _ _ _ Hi1).
    + apply list_elem_of_fmap. exists idx.
      split; [done | by apply elem_of_multi_indices].
  - intros j Hj. apply Hframe.
    rewrite <- list_fmap_compose.
    intros (idx & -> & Hidx%elem_of_multi_indices)%list_elem_of_fmap.
    simpl in Hj. destruct (Hdst' idx Hidx) as [Hd ?]. lia.
Qed.

Lemma multi_index_2 d0 d1 idx :
  multi_index [d0; d1] idx →
  ∃ i0 i1, idx = [i0; i1] ∧ 0 ≤ i0 < d0 ∧ 0 ≤ i1 < d1.
Proof.
  intros (i0 & idx0 & Hi0 & Hidx0 & ->)%Forall2_cons_inv_r.
  apply Forall2_cons_inv_r in Hidx0 as (i1 & idx1 & Hi1 & Hidx1 & ->).
  apply Forall2_nil_inv_r in Hidx1 as ->.
  by exists i0, i1.
Qed.

Lemma multi_index_3 d0 d1 d2 idx :
  multi_index [d0; d1; d2] idx →
  ∃ i0 i1 i2, idx = [i0; i1; i2] ∧ 0 ≤ i0 < d0 ∧ 0 ≤ i1 < d1 ∧ 0 ≤ i2 < d2.
Proof.
  intros (i0 & idx0 & Hi0 & Hidx0 & ->)%Forall2_cons_inv_r.
  apply multi_index_2 in Hidx0 as (i1 & i2 & -> & Hi1 & Hi2).
  by exists i0, i1, i2.
Qed.

Lemma multi_index_4 d0 d1 d2 d3 idx :
  multi_index [d0; d1; d2; d3] idx →
  ∃ i0 i1 i2 i3, idx = [i0; i1; i2; i3] ∧
    0 ≤ i0 < d0 ∧ 0 ≤ i1 < d1 ∧ 0 ≤ i2 < d2 ∧ 0 ≤ i3 < d3.
Proof.
  intros (i0 & idx0 & Hi0 & Hidx0 & ->)%Forall2_cons_inv_r.
  apply multi_index_3 in Hidx0 as (i1 & i2 & i3 & -> & Hi1 & Hi2 & Hi3).
  by exists i0, i1, i2, i3.
Qed.

Lemma is_permutation_cases n perm :
  is_permutation n perm ↔ perm ∈ permutations (seqZ 0 n).
Proof. unfold is_permutation. by rewrite permutations_Permutation. Qed.

(** Splits a membership in an explicit list into its cases. *)
Ltac elem_of_cases H :=
  repeat (apply elem_of_cons in H as [-> | H]); [.. | by apply elem_of_nil in H].

Lemma transpose_2d_spec {T} (a b : list T) (d0 d1 : Z) :
  d0 * d1 < size_max →
  d0 * d1 ≤ Z.of_nat (length a) → d0 * d1 ≤ Z.of_nat (length b) →
  ∃ b',
    transpose_2d a [d0; d1] b = Some b' ∧
    length b' = length b ∧
    (∀ i0 i1, 0 ≤ i0 < d0 → 0 ≤ i1 < d1 →
       ∃ v, load a (i0 * d1 + i1) = Some v ∧
            load b' (i1 * d0 + i0) = Some v) ∧
    (∀ j, d0 * d1 ≤ j → load b' j = load b j).
Proof.
  intros Hmax Ha Hb.
  change (transpose_2d a [d0; d1] b) with
    (loop_nest [d0; d1]
       (λ idx, copy_elem a
          (match idx with
           | [i0; i1] => add_sz (mul_sz i1 d0) i0
           | _ => 0
           end,
           match idx with
           | [i0; i1] => add_sz (mul_sz i0 d1) i1
           | _ => 0
           end)) b).
  assert (product [d0; d1] = d0 * d1) as Hprod by (simpl; lia).
  destruct (copy_nest_spec a b [d0; d1] [1; 0]
              (λ idx, match idx with
                      | [i0; i1] => add_sz (mul_sz i0 d1) i1
                      | _ => 0
                      end)
              (λ idx, match idx with
                      | [i0; i1] => add_sz (mul_sz i1 d0) i0
                      | _ => 0
                      end))
    as (b' & Hrun & Hlen & Hcopy & Hframe); [| lia.. | | |].
  - exact (perm_swap 0 1 []).
  - intros idx (i0 & i1 & -> & _)%multi_index_2. simpl.
    unfold add_sz, mul_sz. modular_ring eqw wrap_eqw.
  - intros idx (i0 & i1 & -> & _)%multi_index_2. simpl.
    unfold add_sz, mul_sz. modular_ring eqw wrap_eqw.
  - exists b'. split_and!; [done | done | |].
    + intros i0 i1 Hi0 Hi1.
      destruct (Hcopy [i0; i1]) as (v & Hv & Hv').
      { unfold multi_index. repeat (constructor; [done|]). constructor. }
      simpl in Hv, Hv'. exists v. split.
      * rewrite <- Hv. f_equal. lia.
      * rewrite <- Hv'. f_equal. lia.
    + intros j Hj. apply Hframe. lia.
Qed.

(** C7: [transpose_2d] with [dims = [d0, d1]] leaves [a[i0*d1 + i1]] in
    [b[i1*d0 + i0]] for every [i0 < d0] and [i1 < d1]; on [dims = [2, 3]]
    the input [1,2,3,4,5,6] gives the output [1,4,2,5,3,6]. *)
Theorem transpose_2d_correct {T} (a b : list T) (d0 d1 : Z) :
  d0 * d1 < size_max →
  d0 * d1 ≤ Z.of_nat (length a) → d0 * d1 ≤ Z.of_nat (length b) →
  (∃ b',
     transpose_2d a [d0; d1] b = Some b' ∧
     length b' = length b ∧
     ∀ i0 i1, 0 ≤ i0 < d0 → 0 ≤ i1 < d1 →
       ∃ v, load a (i0 * d1 + i1) = Some v ∧
            load b' (i1 * d0 + i0) = Some v) ∧
  (∀ y0 y1 y2 y3 y4 y5 : Z,
     transpose_2d [1; 2; 3; 4; 5; 6] [2; 3] [y0; y1; y2; y3; y4; y5]
     = Some [1; 4; 2; 5; 3; 6]).
Proof.
  intros Hmax Ha Hb. split; [|done].
  destruct (transpose_2d_spec a b d0 d1 Hmax Ha Hb)
    as (b' & Hrun & Hlen & Hcopy & _).
  by exists b'.
Qed.

Lemma transpose_3d_loops {T} (a b : list T) (d0 d1 d2 : Z) (perm : list Z) :
  is_permutation 3 perm →
  ∃ s0 s1 s2,
    transpose_3d a [d0; d1; d2] perm b
    = loop_nest [d0; d1; d2]
        (λ idx, copy_elem a
           (match idx with
            | [i0; i1; i2] =>
                add_sz (add_sz (mul_sz i0 s0) (mul_sz i1 s1)) (mul_sz i2 s2)
            | _ => 0
            end,
            match idx with
            | [i0; i1; i2] =>
                add_sz (add_sz (mul_sz i0 (mul_sz d1 d2)) (mul_sz i1 d2))
                  (mul_sz i2 1)
            | _ => 0
            end)) b ∧
    ∀ i0 i1 i2,
      add_sz (add_sz (mul_sz i0 s0) (mul_sz i1 s1)) (mul_sz i2 s2)
      = wrap (row_major (permute perm [d0; d1; d2])
                (permute perm [i0; i1; i2])).
Proof.
  intros Hperm%is_permutation_cases.
  let l := eval vm_compute in (permutations (seqZ 0 3)) in
    change (perm ∈ l) in Hperm.
  (* the stride table of each permutation is evaluated and supplied as the
     witness *)
  elem_of_cases Hperm;
    (match goal with
     | |- context [transpose_3d _ ?dims ?perm _] =>
         let r := eval cbv -[mul_sz] in
           (perm_ind ← inverse_perm 3 perm;
            e1 ← load_perm dims perm 1; e2 ← load_perm dims perm 2;
            s0 ← load_stride [mul_sz e1 e2; e2; 1] perm_ind 0;
            s1 ← load_stride [mul_sz e1 e2; e2; 1] perm_ind 1;
            s2 ← load_stride [mul_sz e1 e2; e2; 1] perm_ind 2;
            Some (s0, s1, s2)) in
         match r with
         | Some (?s0, ?s1, ?s2) => exists s0, s1, s2
         end
     end;
     split;
     [reflexivity
     | intros; simpl; unfold add_sz, mul_sz; modular_ring eqw wrap_eqw]).
Qed.

Lemma transpose_3d_spec {T} (a b : list T) (d0 d1 d2 : Z) (perm : list Z) :
  is_permutation 3 perm →
  product [d0; d1; d2] < size_max →
  product [d0; d1; d2] ≤ Z.of_nat (length a) →
  product [d0; d1; d2] ≤ Z.of_nat (length b) →
  ∃ b',
    transpose_3d a [d0; d1; d2] perm b = Some b' ∧
    length b' = length b ∧
    (∀ idx, multi_index [d0; d1; d2] idx →
       ∃ v, load a (row_major [d0; d1; d2] idx) = Some v ∧
            load b' (row_major (permute perm [d0; d1; d2])
                       (permute perm idx)) = Some v) ∧
    (∀ j, product [d0; d1; d2] ≤ j → load b' j = load b j).
Proof.
  intros Hperm Hmax Ha Hb.
  destruct (transpose_3d_loops a b d0 d1 d2 perm Hperm)
    as (s0 & s1 & s2 & -> & Hdst).
  apply (copy_nest_spec a b [d0; d1; d2] perm
           (λ idx, match idx with
                   | [i0; i1; i2] =>
                       add_sz (add_sz (mul_sz i0 (mul_sz d1 d2))
                                 (mul_sz i1 d2)) (mul_sz i2 1)
                   | _ => 0
                   end)
           (λ idx, match idx with
                   | [i0; i1; i2] =>
                       add_sz (add_sz (mul_sz i0 s0) (mul_sz i1 s1))
                         (mul_sz i2 s2)
                   | _ => 0
                   end)); [done.. | |].
  - intros idx (i0 & i1 & i2 & -> & _)%multi_index_3. simpl.
    unfold add_sz, mul_sz. modular_ring eqw wrap_eqw.
  - intros idx (i0 & i1 & i2 & -> & _)%multi_index_3. apply Hdst.
Qed.

Lemma transpose_4d_loops {T} (a b : list T) (d0 d1 d2 d3 : Z)
    (perm : list Z) :
  is_permutation 4 perm →
  ∃ s0 s1 s2 s3,
    transpose_4d a [d0; d1; d2; d3] perm b
    = loop_nest [d0; d1; d2; d3]
        (λ idx, copy_elem a
           (match idx with
            | [i0; i1; i2; i3] =>
                add_sz (add_sz (add_sz (mul_sz i0 s0) (mul_sz i1 s1))
                          (mul_sz i2 s2)) (mul_sz i3 s3)
            | _ => 0
            end,
            match idx with
            | [i0; i1; i2; i3] =>
                add_sz (add_sz (add_sz (mul_sz i0 (mul_sz (mul_sz d1 d2) d3))
                                  (mul_sz i1 (mul_sz d2 d3)))
                          (mul_sz i2 d3)) (mul_sz i3 1)
            | _ => 0
            end)) b ∧
    ∀ i0 i1 i2 i3,
      add_sz (add_sz (add_sz (mul_sz i0 s0) (mul_sz i1 s1)) (mul_sz i2 s2))
        (mul_sz i3 s3)
      = wrap (row_major (permute perm [d0; d1; d2; d3])
                (permute perm [i0; i1; i2; i3])).
Proof.
  intros Hperm%is_permutation_cases.
  let l := eval vm_compute in (permutations (seqZ 0 4)) in
    change (perm ∈ l) in Hperm.
  (* the stride table of each permutation is evaluated and supplied as the
     witness *)
  elem_of_cases Hperm;
    (match goal with
     | |- context [transpose_4d _ ?dims ?perm _] =>
         let r := eval cbv -[mul_sz] in
           (perm_ind ← inverse_perm 4 perm;
            e1 ← load_perm dims perm 1; e2 ← load_perm dims perm 2;
            e3 ← load_perm dims perm 3;
            s0 ← load_stride [mul_sz (mul_sz e1 e2) e3; mul_sz e2 e3; e3; 1]
                   perm_ind 0;
            s1 ← load_stride [mul_sz (mul_sz e1 e2) e3; mul_sz e2 e3; e3; 1]
                   perm_ind 1;
            s2 ← load_stride [mul_sz (mul_sz e1 e2) e3; mul_sz e2 e3; e3; 1]
                   perm_ind 2;
            s3 ← load_stride [mul_sz (mul_sz e1 e2) e3; mul_sz e2 e3; e3; 1]
                   perm_ind 3;
            Some (s0, s1, s2, s3)) in
         match r with
         | Some (?s0, ?s1, ?s2, ?s3) => exists s0, s1, s2, s3
         end
     end;
     split;
     [reflexivity
     | intros; simpl; unfold add_sz, mul_sz; modular_ring eqw wrap_eqw]).
Qed.

Lemma transpose_4d_spec {T} (a b : list T) (d0 d1 d2 d3 : Z)
    (perm : list Z) :
  is_permutation 4 perm →
  product [d0; d1; d2; d3] < size_max →
  product [d0; d1; d2; d3] ≤ Z.of_nat (length a) →
  product [d0; d1; d2; d3] ≤ Z.of_nat (length b) →
  ∃ b',
    transpose_4d a [d0; d1; d2; d3] perm b = Some b' ∧
    length b' = length b ∧
    (∀ idx, multi_index [d0; d1; d2; d3] idx →
       ∃ v, load a (row_major [d0; d1; d2; d3] idx) = Some v ∧
            load b' (row_major (permute perm [d0; d1; d2; d3])
                       (permute perm idx)) = Some v) ∧
    (∀ j, product [d0; d1; d2; d3] ≤ j → load b' j = load b j).
Proof.
  intros Hperm Hmax Ha Hb.
  destruct (transpose_4d_loops a b d0 d1 d2 d3 perm Hperm)
    as (s0 & s1 & s2 & s3 & -> & Hdst).
  apply (copy_nest_spec a b [d0; d1; d2; d3] perm
           (λ idx, match idx with
                   | [i0; i1; i2; i3] =>
                       add_sz (add_sz (add_sz
                                 (mul_sz i0 (mul_sz (mul_sz d1 d2) d3))
                                 (mul_sz i1 (mul_sz d2 d3)))
                                 (mul_sz i2 d3)) (mul_sz i3 1)
                   | _ => 0
                   end)
           (λ idx, match idx with
                   | [i0; i1; i2; i3] =>
                       add_sz (add_sz (add_sz (mul_sz i0 s0) (mul_sz i1 s1))
                                 (mul_sz i2 s2)) (mul_sz i3 s3)
                   | _ => 0
                   end)); [done.. | |].
  - intros idx (i0 & i1 & i2 & i3 & -> & _)%multi_index_4. simpl.
    unfold add_sz, mul_sz. modular_ring eqw wrap_eqw.
  - intros idx (i0 & i1 & i2 & i3 & -> & _)%multi_index_4. apply Hdst.
Qed.

(** C1: for a 3-dimensional (resp. 4-dimensional) [dims] and a [perm] that is
    a bijection over the axis indices, [transpose_3d] (resp. [transpose_4d])
    leaves, for every multi-index [idx] over [dims], the element of [a] at the
    row-major index of [idx] over [dims] in [b] at the row-major index of the
    permuted multi-index over the permuted extents: [b], seen as a tensor of
    shape [dims[perm[0]], ..., dims[perm[n-1]]], holds at
    [(i_perm[0], ..., i_perm[n-1])] what [a] holds at [(i_0, ..., i_{n-1})]. *)
Theorem transpose_3d_4d_correct {T} (a b : list T) (dims perm : list Z) :
  is_permutation (Z.of_nat (length dims)) perm →
  product dims < size_max →
  product dims ≤ Z.of_nat (length a) → product dims ≤ Z.of_nat (length b) →
  (length dims = 3%nat →
   ∃ b',
     transpose_3d a dims perm b = Some b' ∧
     length b' = length b ∧
     ∀ idx, multi_index dims idx →
       ∃ v, load a (row_major dims idx) = Some v ∧
            load b' (row_major (permute perm dims) (permute perm idx))
            = Some v) ∧
  (length dims = 4%nat →
   ∃ b',
     transpose_4d a dims perm b = Some b' ∧
     length b' = length b ∧
     ∀ idx, multi_index dims idx →
       ∃ v, load a (row_major dims idx) = Some v ∧
            load b' (row_major (permute perm dims) (permute perm idx))
            = Some v).
Proof.
  intros Hperm Hmax Ha Hb. split; intros Hlen.
  - destruct dims as [|d0 [|d1 [|d2 [|]]]]; try done.
    destruct (transpose_3d_spec a b d0 d1 d2 perm Hperm Hmax Ha Hb)
      as (b' & Hrun & Hlen' & Hcopy & _).
    by exists b'.
  - destruct dims as [|d0 [|d1 [|d2 [|d3 [|]]]]]; try done.
    destruct (transpose_4d_spec a b d0 d1 d2 d3 perm Hperm Hmax Ha Hb)
      as (b' & Hrun & Hlen' & Hcopy & _).
    by exists b'.
Qed.

(** * Instances

    Each statement below instantiates one of the theorems above at a
    concrete input and re-establishes its premises there. *)

Lemma add_then_sub_restores_witness :
  Forall (in_range int8_t) [100; -100] ∧
  ∃ c' c2',
    add int8_t [100; -100] [100; -100] [0; 0] 2 = Some c' ∧
    sub int8_t c' [100; -100] [7; 7; 7] 2 = Some c2' ∧
    (∀ i, 0 ≤ i < 2 → load c2' i = load [100; -100] i) ∧
    take 2 c2' = [100; -100].
Proof.
  assert (Forall (in_range int8_t) [100; -100]) as Hrange.
  { repeat constructor; vm_compute; discriminate. }
  split; [exact Hrange|].
  apply (add_then_sub_restores int8_t [100; -100] [100; -100] [0; 0]
           [7; 7; 7] 2); [reflexivity | reflexivity | simpl; lia..| exact Hrange].
Defined.

Lemma max_element_first_maximum_witness :
  (∃ m v,
     max_element [2; 7; 1; 7] 4 = Some m ∧
     max [2; 7; 1; 7] 4 = Some v ∧
     0 ≤ m < 4 ∧
     load [2; 7; 1; 7] m = Some v ∧
     (∀ j w, load [2; 7; 1; 7] j = Some w → w ≤ v) ∧
     (∀ j, load [2; 7; 1; 7] j = Some v → m ≤ j)) ∧
  max_element [3; 5; 5; 2] 4 = Some 1.
Proof.
  apply (max_element_first_maximum [2; 7; 1; 7] 4); [reflexivity | lia].
Defined.





Lemma gemm_batch_slices_witness :
  gemm_batch gemm_record 100 200 false true 3 2 4 5 1 0 300 []
  = run (λ i, gemm_record (100 + i * 2 * 5) (200 + i * 5 * 4) false true
                2 4 5 1 0 (300 + i * 2 * 4))
      (seqZ 0 3) [] ∧
  (∀ (alpha' beta' : Z) (log : list gemm_call),
     gemm_batch gemm_record 100 200 false true 3 2 4 5 alpha' beta' 300 log
     = Some (log ++ ((λ i, (100 + i * 2 * 5, 200 + i * 5 * 4, false, true,
                             2, 4, 5, alpha', beta', 300 + i * 2 * 4))
                       <$> seqZ 0 3))) ∧
  gemm_batch gemm_record 100 200 false true 1 2 4 5 1 0 300 []
  = gemm_record 100 200 false true 2 4 5 1 0 300 [].
Proof.
  apply (gemm_batch_slices gemm_record 100 200 false true 3 2 4 5 1 0 300 []);
    unfold size_max; lia.
Defined.

Lemma transpose_2d_correct_witness :
  (∃ b',
     transpose_2d [1; 2; 3; 4; 5; 6] [2; 3] [0; 0; 0; 0; 0; 0] = Some b' ∧
     length b' = 6%nat ∧
     ∀ i0 i1, 0 ≤ i0 < 2 → 0 ≤ i1 < 3 →
       ∃ v, load [1; 2; 3; 4; 5; 6] (i0 * 3 + i1) = Some v ∧
            load b' (i1 * 2 + i0) = Some v) ∧
  (∀ y0 y1 y2 y3 y4 y5 : Z,
     transpose_2d [1; 2; 3; 4; 5; 6] [2; 3] [y0; y1; y2; y3; y4; y5]
     = Some [1; 4; 2; 5; 3; 6]).
Proof.
  apply (transpose_2d_correct [1; 2; 3; 4; 5; 6] [0; 0; 0; 0; 0; 0] 2 3);
    [unfold size_max; lia | simpl; lia..].
Defined.

Lemma transpose_3d_4d_correct_witness :
  (is_permutation 3 [2; 0; 1] ∧
   ∃ b',
     transpose_3d [1; 2; 3; 4; 5; 6] [1; 2; 3] [2; 0; 1] (replicate 6 0)
     = Some b' ∧
     length b' = 6%nat ∧
     ∀ idx, multi_index [1; 2; 3] idx →
       ∃ v, load [1; 2; 3; 4; 5; 6] (row_major [1; 2; 3] idx) = Some v ∧
            load b' (row_major (permute [2; 0; 1] [1; 2; 3])
                       (permute [2; 0; 1] idx)) = Some v) ∧
  (is_permutation 4 [3; 1; 0; 2] ∧
   ∃ b',
     transpose_4d (seqZ 1 12) [1; 2; 3; 2] [3; 1; 0; 2] (replicate 12 0)
     = Some b' ∧
     length b' = 12%nat ∧
     ∀ idx, multi_index [1; 2; 3; 2] idx →
       ∃ v, load (seqZ 1 12) (row_major [1; 2; 3; 2] idx) = Some v ∧
            load b' (row_major (permute [3; 1; 0; 2] [1; 2; 3; 2])
                       (permute [3; 1; 0; 2] idx)) = Some v).
Proof.
  assert (is_permutation 3 [2; 0; 1]) as Hp3.
  { apply is_permutation_cases.
    apply (bool_decide_eq_true_1 (_ ∈ _)). vm_compute. reflexivity. }
  assert (is_permutation 4 [3; 1; 0; 2]) as Hp4.
  { apply is_permutation_cases.
    apply (bool_decide_eq_true_1 (_ ∈ _)). vm_compute. reflexivity. }
  split; (split; [assumption|]).
  - apply (transpose_3d_4d_correct [1; 2; 3; 4; 5; 6] (replicate 6 0)
             [1; 2; 3] [2; 0; 1]);
      [exact Hp3 | unfold size_max; simpl; lia | simpl; lia.. | reflexivity].
  - apply (transpose_3d_4d_correct (seqZ 1 12) (replicate 12 0)
             [1; 2; 3; 2] [3; 1; 0; 2]);
      [exact Hp4 | unfold size_max; simpl; lia | simpl; lia.. | reflexivity].
Defined.

(** * Further properties of the header *)

(** ** Shared buffers *)

Lemma load_ext {T} (l1 l2 : list T) :
  length l1 = length l2 →
  (∀ i, 0 ≤ i < Z.of_nat (length l2) → load l1 i = load l2 i) →
  l1 = l2.
Proof.
  intros Hlen Heq. rewrite <- (take_load_ext l2 l1 Heq).
  symmetry. apply take_ge. lia.
Qed.

(** A read through [x] of a memory whose buffer [y] was replaced by [out]
    sees the original element wherever [out] still agrees with the original
    content of [y], whether or not [x] and [y] are the same buffer. *)
Lemma read_shared (m : memory) (x y : nat) (xs ys out : list Z) i :
  m !! x = Some xs → m !! y = Some ys →
  load out i = load ys i →
  read (<[y := out]> m) x i = load xs i.
Proof.
  intros Hx Hy Hout. unfold read. destruct (decide (x = y)) as [->|Hne].
  - rewrite lookup_insert_eq. simpl. congruence.
  - rewrite lookup_insert_ne by done. by rewrite Hx.
Qed.

Lemma write_insert (m : memory) (y : nat) (out : list Z) i w :
  0 ≤ i < Z.of_nat (length out) →
  write (<[y := out]> m) y i w = Some (<[y := <[Z.to_nat i := w]> out]> m).
Proof.
  intros Hi. unfold write. rewrite lookup_insert_eq. simpl.
  rewrite store_Some by done. simpl. by rewrite insert_insert_eq.
Qed.

Lemma write_insert_None (m : memory) (y : nat) (out : list Z) i w :
  Z.of_nat (length out) ≤ i → write (<[y := out]> m) y i w = None.
Proof.
  intros Hi. unfold write. rewrite lookup_insert_eq. simpl.
  by rewrite store_None.
Qed.

(** ** Transforms on shared buffers *)

Lemma unary_state_init func (m : memory) y xs ys :
  m !! y = Some ys → unary_state func m y xs ys 0 m.
Proof.
  intros Hy. exists ys.
  split_and!; [by rewrite insert_id | done | intros; lia | done].
Qed.

(** One iteration of [unary_transform_at] in a state of the invariant has a
    result exactly when the function has one on the element it reads, and
    then re-establishes the invariant. *)
Lemma unary_state_body func (m : memory) x y xs ys j mj :
  m !! x = Some xs → m !! y = Some ys →
  0 ≤ j < Z.of_nat (length xs) → j < Z.of_nat (length ys) →
  unary_state func m y xs ys j mj →
  ∃ v, load xs j = Some v ∧
    match func v with
    | Some w =>
        ∃ mj', (v ← read mj x j; w ← func v; write mj y j w) = Some mj' ∧
               unary_state func m y xs ys (j + 1) mj'
    | None => (v ← read mj x j; w ← func v; write mj y j w) = None
    end.
Proof.
  intros Hx Hy Hj Hjy (out & -> & Hlen & Hdone & Hrest).
  destruct (load_lt xs j Hj) as [v Hv]. exists v. split; [done|].
  rewrite (read_shared m x y xs ys out j Hx Hy) by (apply Hrest; lia).
  rewrite Hv. simpl. destruct (func v) as [w|] eqn:Hw; simpl; [|done].
  rewrite write_insert by lia. eexists. split; [done|].
  eexists. split_and!; [done | by rewrite length_insert | |].
  - intros i Hi. destruct (decide (i = j)) as [->|Hne].
    + exists v. split; [done|]. rewrite load_insert_eq by lia. done.
    + rewrite load_insert_ne by lia. apply Hdone. lia.
  - intros i Hi. rewrite load_insert_ne by lia. apply Hrest. lia.
Qed.

Lemma unary_transform_at_spec (x y : nat) (size : Z) (func : Z → option Z)
    (m : memory) (xs ys : list Z) :
  m !! x = Some xs → m !! y = Some ys →
  0 ≤ size → size ≤ Z.of_nat (length xs) → size ≤ Z.of_nat (length ys) →
  (∀ i v, 0 ≤ i < size → load xs i = Some v → is_Some (func v)) →
  ∃ out,
    unary_transform_at x y size func m = Some (<[y := out]> m) ∧
    length out = length ys ∧
    (∀ i, 0 ≤ i < size → ∃ v, load xs i = Some v ∧ load out i = func v) ∧
    (∀ i, size ≤ i → load out i = load ys i).
Proof.
  intros Hx Hy Hsize Hxs Hys Hfunc. unfold unary_transform_at.
  destruct (for_range_inv (unary_state func m y xs ys)
              (λ i m, v ← read m x i; w ← func v; write m y i w) size m)
    as (m' & Hrun & out & -> & Hout); [done | by apply unary_state_init | |].
  - intros j mj Hj Hstate.
    destruct (unary_state_body func m x y xs ys j mj Hx Hy)
      as (v & Hv & Hbody); [lia | lia | done |].
    destruct (Hfunc j v Hj Hv) as [w Hw]. rewrite Hw in Hbody.
    destruct Hbody as (mj' & ? & ?). by exists mj'.
  - by exists out.
Qed.

(** [unary_transform_at] has no result when the function has none on an
    element of the range. *)
Lemma unary_transform_at_undefined (x y : nat) (size : Z)
    (func : Z → option Z) (m : memory) (xs ys : list Z) i v :
  m !! x = Some xs → m !! y = Some ys →
  size ≤ Z.of_nat (length xs) → size ≤ Z.of_nat (length ys) →
  0 ≤ i < size → load xs i = Some v → func v = None →
  unary_transform_at x y size func m = None.
Proof.
  intros Hx Hy Hxs Hys Hi Hv Hnone.
  destruct (unary_transform_at x y size func m) as [m'|] eqn:Hrun; [|done].
  exfalso. unfold unary_transform_at in Hrun.
  destruct (for_range_Some_inv (unary_state func m y xs ys) _ _ _ _ Hrun)
    with (j := i) as (mi & Hstate & Hsome);
    [by apply unary_state_init | | done |].
  - intros j t t' Hj Hstate Hbody.
    destruct (unary_state_body func m x y xs ys j t Hx Hy)
      as (u & Hu & Hb); [lia | lia | done |].
    destruct (func u); [|congruence].
    destruct Hb as (t'' & Ht'' & ?). congruence.
  - destruct (unary_state_body func m x y xs ys i mi Hx Hy)
      as (u & Hu & Hb); [lia | lia | done |].
    assert (u = v) as -> by congruence. rewrite Hnone in Hb.
    rewrite Hb in Hsome. by destruct Hsome.
Qed.

Lemma binary_state_init func (m : memory) c a_s bs cs :
  m !! c = Some cs → binary_state func m c a_s bs cs 0 m.
Proof.
  intros Hc. exists cs.
  split_and!; [by rewrite insert_id | done | intros; lia | done].
Qed.

Lemma binary_transform_at_spec (a b c : nat) (size : Z)
    (func : Z → Z → option Z) (m : memory) (a_s bs cs : list Z) :
  m !! a = Some a_s → m !! b = Some bs → m !! c = Some cs →
  0 ≤ size → size ≤ Z.of_nat (length a_s) → size ≤ Z.of_nat (length bs) →
  size ≤ Z.of_nat (length cs) →
  (∀ i v1 v2, 0 ≤ i < size → load a_s i = Some v1 → load bs i = Some v2 →
     is_Some (func v1 v2)) →
  ∃ out,
    binary_transform_at a b c size func m = Some (<[c := out]> m) ∧
    length out = length cs ∧
    (∀ i, 0 ≤ i < size →
       ∃ v1 v2, load a_s i = Some v1 ∧ load bs i = Some v2 ∧
                load out i = func v1 v2) ∧
    (∀ i, size ≤ i → load out i = load cs i).
Proof.
  intros Ha Hb Hc Hsize Has Hbs Hcs Hfunc. unfold binary_transform_at.
  destruct (for_range_inv (binary_state func m c a_s bs cs)
              (λ i m, v1 ← read m a i; v2 ← read m b i; w ← func v1 v2;
                      write m c i w) size m)
    as (m' & Hrun & out & -> & Hout); [done | by apply binary_state_init | |].
  - intros j mj Hj (out & -> & Hlen & Hdone & Hrest).
    destruct (load_lt a_s j) as [v1 Hv1]; [lia|].
    destruct (load_lt bs j) as [v2 Hv2]; [lia|].
    rewrite (read_shared m a c a_s cs out j Ha Hc) by (apply Hrest; lia).
    rewrite (read_shared m b c bs cs out j Hb Hc) by (apply Hrest; lia).
    rewrite Hv1, Hv2. simpl.
    destruct (Hfunc j v1 v2 Hj Hv1 Hv2) as [w Hw]. rewrite Hw. simpl.
    rewrite write_insert by lia. eexists. split; [done|].
    eexists. split_and!; [done | by rewrite length_insert | |].
    + intros i Hi. destruct (decide (i = j)) as [->|Hne].
      * exists v1, v2. split_and!; [done..|].
        rewrite load_insert_eq by lia. done.
      * rewrite load_insert_ne by lia. apply Hdone. lia.
    + intros i Hi. rewrite load_insert_ne by lia. apply Hrest. lia.
  - by exists out.
Qed.

Lemma unary_transform_spec {T1 T2} (x : list T1) (y : list T2) size
    (func : T1 → T2) :
  0 ≤ size →
  size ≤ Z.of_nat (length x) → size ≤ Z.of_nat (length y) →
  ∃ y', unary_transform x y size func = Some y' ∧
    length y' = length y ∧
    (∀ i, 0 ≤ i < size →
       ∃ v, load x i = Some v ∧ load y' i = Some (func v)) ∧
    (∀ i, size ≤ i → load y' i = load y i).
Proof.
  intros Hsize Hx Hy. unfold unary_transform.
  apply (for_range_inv (λ j (y' : list T2),
    length y' = length y ∧
    (∀ i, 0 ≤ i < j → ∃ v, load x i = Some v ∧ load y' i = Some (func v)) ∧
    (∀ i, j ≤ i → load y' i = load y i))); [done | |].
  - split_and!; [done | intros; lia | done].
  - intros j t Hj (Hlen & Hdone & Hrest).
    destruct (load_lt x j) as [v Hv]; [lia|].
    rewrite Hv. simpl. rewrite store_Some by lia.
    eexists. split; [done|]. split_and!.
    + by rewrite length_insert.
    + intros i Hi. destruct (decide (i = j)) as [->|Hne].
      * exists v. split; [done|]. apply load_insert_eq. lia.
      * rewrite load_insert_ne by lia. apply Hdone. lia.
    + intros i Hi. rewrite load_insert_ne by lia. apply Hrest. lia.
Qed.

(** Two buffers of one length that agree below [size] and, from [size] on,
    with a common third one. *)
Lemma load_ext_split {T} (l1 l2 l : list T) size :
  length l1 = length l → length l2 = length l →
  (∀ i, 0 ≤ i < size → load l1 i = load l2 i) →
  (∀ i, size ≤ i → load l1 i = load l i) →
  (∀ i, size ≤ i → load l2 i = load l i) →
  l1 = l2.
Proof.
  intros H1 H2 Hlow Hhigh1 Hhigh2. apply load_ext; [congruence|].
  intros i Hi. destruct (decide (i < size)).
  - apply Hlow. lia.
  - rewrite Hhigh1, Hhigh2 by lia. done.
Qed.

Lemma unary_transform_at_pure (x y : nat) (size : Z) (f : Z → Z)
    (m : memory) (xs ys : list Z) :
  m !! x = Some xs → m !! y = Some ys →
  0 ≤ size → size ≤ Z.of_nat (length xs) → size ≤ Z.of_nat (length ys) →
  ∃ out,
    unary_transform xs ys size f = Some out ∧
    unary_transform_at x y size (λ v, Some (f v)) m = Some (<[y := out]> m).
Proof.
  intros Hx Hy Hsize Hxs Hys.
  destruct (unary_transform_spec xs ys size f Hsize Hxs Hys)
    as (out & Hpure & Hlen & Hval & Hrest).
  destruct (unary_transform_at_spec x y size (λ v, Some (f v)) m xs ys
              Hx Hy Hsize Hxs Hys) as (out' & Hat & Hlen' & Hval' & Hrest').
  { intros. by eexists. }
  exists out. split; [done|]. rewrite Hat. do 2 f_equal.
  apply (load_ext_split out' out ys size); [done.. | | done | done].
  intros i Hi. destruct (Hval i Hi) as (v & Hv & ->).
  destruct (Hval' i Hi) as (v' & Hv' & ->). congruence.
Qed.

Lemma binary_transform_at_pure (a b c : nat) (size : Z) (f : Z → Z → Z)
    (m : memory) (a_s bs cs : list Z) :
  m !! a = Some a_s → m !! b = Some bs → m !! c = Some cs →
  0 ≤ size → size ≤ Z.of_nat (length a_s) → size ≤ Z.of_nat (length bs) →
  size ≤ Z.of_nat (length cs) →
  ∃ out,
    binary_transform a_s bs cs size f = Some out ∧
    binary_transform_at a b c size (λ v1 v2, Some (f v1 v2)) m
    = Some (<[c := out]> m).
Proof.
  intros Ha Hb Hc Hsize Has Hbs Hcs.
  destruct (binary_transform_spec a_s bs cs size f Hsize Has Hbs Hcs)
    as (out & Hpure & Hlen & Hval & Hrest).
  destruct (binary_transform_at_spec a b c size (λ v1 v2, Some (f v1 v2)) m
              a_s bs cs Ha Hb Hc Hsize Has Hbs Hcs)
    as (out' & Hat & Hlen' & Hval' & Hrest').
  { intros. by eexists. }
  exists out. split; [done|]. rewrite Hat. do 2 f_equal.
  apply (load_ext_split out' out cs size); [done.. | | done | done].
  intros i Hi. destruct (Hval i Hi) as (v1 & v2 & Hv1 & Hv2 & ->).
  destruct (Hval' i Hi) as (w1 & w2 & Hw1 & Hw2 & ->). congruence.
Qed.

(** ** Closed forms *)

Lemma load_nat {T} (l : list T) i : 0 ≤ i → load l i = l !! Z.to_nat i.
Proof. intros. unfold load. by rewrite decide_True. Qed.

(** The buffer that holds [ws] followed by the elements of [ys] from [size]
    on is the one whose loads are those of [ws] below [size] and those of
    [ys] from [size] on. *)
Lemma prefix_update_ext {T} (out ws ys : list T) size :
  0 ≤ size → length ws = Z.to_nat size → size ≤ Z.of_nat (length ys) →
  length out = length ys →
  (∀ i, 0 ≤ i < size → load out i = load ws i) →
  (∀ i, size ≤ i → load out i = load ys i) →
  out = ws ++ drop (Z.to_nat size) ys.
Proof.
  intros Hsize Hws Hys Hlen Hlow Hhigh. apply load_ext.
  - rewrite length_app, length_drop. lia.
  - intros i Hi. rewrite length_app, length_drop in Hi.
    destruct (decide (i < size)).
    + rewrite Hlow by lia. rewrite !load_nat by lia.
      symmetry. apply lookup_app_l. lia.
    + rewrite Hhigh by lia. rewrite !load_nat by lia.
      rewrite lookup_app_r, lookup_drop by lia. f_equal. lia.
Qed.

Lemma unary_transform_closed {T1 T2} (x : list T1) (y : list T2) size
    (func : T1 → T2) :
  0 ≤ size →
  size ≤ Z.of_nat (length x) → size ≤ Z.of_nat (length y) →
  unary_transform x y size func
  = Some ((func <$> take (Z.to_nat size) x) ++ drop (Z.to_nat size) y).
Proof.
  intros Hsize Hx Hy.
  destruct (unary_transform_spec x y size func Hsize Hx Hy)
    as (y' & -> & Hlen & Hval & Hrest).
  f_equal. apply prefix_update_ext; [done | | done.. | | done].
  - rewrite length_fmap, length_take. lia.
  - intros i Hi. destruct (Hval i Hi) as (v & Hv & ->).
    rewrite load_nat in Hv by lia. rewrite load_nat by lia.
    by rewrite list_lookup_fmap, lookup_take_lt, Hv by lia.
Qed.

Lemma binary_transform_closed {T1 T2} (a b : list T1) (c : list T2) size
    (func : T1 → T1 → T2) :
  0 ≤ size →
  size ≤ Z.of_nat (length a) → size ≤ Z.of_nat (length b) →
  size ≤ Z.of_nat (length c) →
  binary_transform a b c size func
  = Some (zip_with func (take (Z.to_nat size) a) (take (Z.to_nat size) b)
            ++ drop (Z.to_nat size) c).
Proof.
  intros Hsize Ha Hb Hc.
  destruct (binary_transform_spec a b c size func Hsize Ha Hb Hc)
    as (c' & -> & Hlen & Hval & Hrest).
  f_equal. apply prefix_update_ext; [done | | done.. | | done].
  - rewrite length_zip_with, !length_take. lia.
  - intros i Hi. destruct (Hval i Hi) as (v1 & v2 & Hv1 & Hv2 & ->).
    rewrite load_nat in Hv1, Hv2 by lia. rewrite load_nat by lia.
    rewrite lookup_zip_with, !lookup_take_lt, Hv1, Hv2 by lia. done.
Qed.

Lemma unary_transform_at_closed (x y : nat) (size : Z) (f : Z → Z)
    (m : memory) (xs ys : list Z) :
  m !! x = Some xs → m !! y = Some ys →
  0 ≤ size → size ≤ Z.of_nat (length xs) → size ≤ Z.of_nat (length ys) →
  unary_transform_at x y size (λ v, Some (f v)) m
  = Some (<[y := (f <$> take (Z.to_nat size) xs)
                   ++ drop (Z.to_nat size) ys]> m).
Proof.
  intros Hx Hy Hsize Hxs Hys.
  destruct (unary_transform_at_pure x y size f m xs ys Hx Hy Hsize Hxs Hys)
    as (out & Hpure & ->).
  rewrite unary_transform_closed in Hpure by done. by injection Hpure as <-.
Qed.

Lemma binary_transform_at_closed (a b c : nat) (size : Z) (f : Z → Z → Z)
    (m : memory) (a_s bs cs : list Z) :
  m !! a = Some a_s → m !! b = Some bs → m !! c = Some cs →
  0 ≤ size → size ≤ Z.of_nat (length a_s) → size ≤ Z.of_nat (length bs) →
  size ≤ Z.of_nat (length cs) →
  binary_transform_at a b c size (λ v1 v2, Some (f v1 v2)) m
  = Some (<[c := zip_with f (take (Z.to_nat size) a_s)
                   (take (Z.to_nat size) bs)
                   ++ drop (Z.to_nat size) cs]> m).
Proof.
  intros Ha Hb Hc Hsize Has Hbs Hcs.
  destruct (binary_transform_at_pure a b c size f m a_s bs cs
              Ha Hb Hc Hsize Has Hbs Hcs) as (out & Hpure & ->).
  rewrite binary_transform_closed in Hpure by done. by injection Hpure as <-.
Qed.

(** ** Conversion to the element type *)

Lemma norm_mod ty x : norm ty x mod modulus ty = x mod modulus ty.
Proof.
  unfold norm. pose proof (modulus_pos ty). destruct (signed ty).
  - rewrite Zminus_mod_idemp_l. f_equal. lia.
  - apply Z.mod_mod. lia.
Qed.

Lemma norm_congr ty x x' :
  x mod modulus ty = x' mod modulus ty → norm ty x = norm ty x'.
Proof.
  intros Heq. unfold norm. pose proof (modulus_pos ty). destruct (signed ty).
  - f_equal. rewrite (Z.add_mod x), (Z.add_mod x') by lia. by rewrite Heq.
  - done.
Qed.

Lemma norm_add_r ty x y : norm ty (x + norm ty y) = norm ty (x + y).
Proof. rewrite (Z.add_comm x), norm_add_l. f_equal. lia. Qed.

Lemma norm_mul_l ty x y : norm ty (norm ty x * y) = norm ty (x * y).
Proof.
  apply norm_congr. pose proof (modulus_pos ty).
  rewrite (Z.mul_mod (norm ty x)), norm_mod, <- Z.mul_mod by lia. done.
Qed.

Lemma norm_zero ty : norm ty 0 = 0.
Proof.
  apply norm_id. unfold in_range, min_value, max_value.
  pose proof (half_modulus_pos ty). pose proof (modulus_half ty).
  destruct (signed ty); lia.
Qed.

(** ** In-place arithmetic *)

(** X1: [unary_transform] may be called in place.  Whether or not the output
    pointer is the input pointer, the output buffer ends up with what the
    transform computes from the original content of the input, and no other
    buffer changes. *)
Theorem unary_transform_in_place (x y : nat) (size : Z) (f : Z → Z)
    (m : memory) (xs ys : list Z) :
  m !! x = Some xs → m !! y = Some ys →
  0 ≤ size → size ≤ Z.of_nat (length xs) → size ≤ Z.of_nat (length ys) →
  ∃ out,
    unary_transform xs ys size f = Some out ∧
    unary_transform_at x y size (λ v, Some (f v)) m = Some (<[y := out]> m).
Proof. apply unary_transform_at_pure. Qed.

(** X2: [binary_transform] may be called with an output that is one of its
    inputs: for every choice of the three pointers the output buffer ends up
    with what the transform computes from the original contents, and no
    other buffer changes. *)
Theorem binary_transform_in_place (a b c : nat) (size : Z) (f : Z → Z → Z)
    (m : memory) (a_s bs cs : list Z) :
  m !! a = Some a_s → m !! b = Some bs → m !! c = Some cs →
  0 ≤ size → size ≤ Z.of_nat (length a_s) → size ≤ Z.of_nat (length bs) →
  size ≤ Z.of_nat (length cs) →
  ∃ out,
    binary_transform a_s bs cs size f = Some out ∧
    binary_transform_at a b c size (λ v1 v2, Some (f v1 v2)) m
    = Some (<[c := out]> m).
Proof. apply binary_transform_at_pure. Qed.

Lemma sub_scalar_at_closed (ty : int_type) (a : Z) (y : nat) (size : Z)
    (m : memory) (ys : list Z) :
  m !! y = Some ys → 0 ≤ size → size ≤ Z.of_nat (length ys) →
  sub_scalar ty a y size m
  = Some (<[y := ((λ v, norm ty (v - a)) <$> take (Z.to_nat size) ys)
                   ++ drop (Z.to_nat size) ys]> m).
Proof.
  intros Hy Hsize Hys. unfold sub_scalar, add_scalar.
  rewrite (unary_transform_at_closed y y size
             (λ v, norm ty (v + norm ty (- a))) m ys ys) by done.
  do 3 f_equal. apply list_fmap_ext. intros _ v _.
  by rewrite norm_add_r.
Qed.

(** X4: [sub(a, y, size)], which adds the negated scalar, replaces [y[i]] by
    [y[i] - a] modulo [2^bits] for [i < size], for every [a] of the type,
    the least value included. *)
Theorem sub_scalar_closed (ty : int_type) (a : Z) (y : nat) (size : Z)
    (m : memory) (ys : list Z) :
  m !! y = Some ys → 0 ≤ size → size ≤ Z.of_nat (length ys) →
  sub_scalar ty a y size m
  = Some (<[y := ((λ v, norm ty (v - a)) <$> take (Z.to_nat size) ys)
                   ++ drop (Z.to_nat size) ys]> m).
Proof. apply sub_scalar_at_closed. Qed.

(** X5: [add(a, y, size)] followed by [sub(a, y, size)] restores the memory,
    for every scalar [a], when the first [size] elements of [y] are values
    of the type. *)
Theorem add_sub_scalar_restores (ty : int_type) (a : Z) (y : nat) (size : Z)
    (m : memory) (ys : list Z) :
  m !! y = Some ys → 0 ≤ size → size ≤ Z.of_nat (length ys) →
  Forall (in_range ty) (take (Z.to_nat size) ys) →
  ∃ m1, add_scalar ty a y size m = Some m1 ∧
        sub_scalar ty a y size m1 = Some m.
Proof.
  intros Hy Hsize Hys Hrange. eexists. split.
  { unfold add_scalar. by apply unary_transform_at_closed. }
  set (ys1 := ((λ v, norm ty (v + a)) <$> take (Z.to_nat size) ys)
                ++ drop (Z.to_nat size) ys).
  assert (length ys1 = length ys) as Hlen1.
  { unfold ys1. rewrite length_app, length_fmap, length_take, length_drop.
    lia. }
  rewrite (sub_scalar_at_closed ty a y size _ ys1);
    [| by rewrite lookup_insert_eq | done | lia].
  rewrite insert_insert_eq. f_equal.
  rewrite <- (insert_id m y ys) at 2 by done. f_equal.
  unfold ys1. rewrite take_app_length', drop_app_length'
    by (rewrite length_fmap, length_take; lia).
  rewrite <- list_fmap_compose.
  rewrite <- (take_drop (Z.to_nat size) ys) at 3. f_equal.
  rewrite <- (list_fmap_id (take (Z.to_nat size) ys)) at 2.
  apply Forall_fmap_ext_1. eapply Forall_impl; [exact Hrange|].
  intros v Hv. simpl.
  replace (norm ty (v + a) - a) with (norm ty (v + a) + - a) by lia.
  rewrite norm_add_l. replace (v + a + - a) with v by lia. by apply norm_id.
Qed.

Lemma for_range_ext {St} (f g : Z → St → option St) n s :
  (∀ i t, f i t = g i t) → for_range n f s = for_range n g s.
Proof. intros Hfg. rewrite !for_range_run. by apply run_ext. Qed.

(** X6: [add] and [mul] do not depend on the order of their two inputs,
    for every choice of the pointers and also when the call has no
    result. *)
Theorem add_mul_commute (ty : int_type) (a b c : nat) (size : Z)
    (m : memory) :
  add_at ty a b c size m = add_at ty b a c size m ∧
  mul_at ty a b c size m = mul_at ty b a c size m.
Proof.
  unfold add_at, mul_at, binary_transform_at.
  split; apply for_range_ext; intros i t;
    destruct (read t a i) as [v1|], (read t b i) as [v2|]; simpl;
    try done.
  - by rewrite (Z.add_comm v1).
  - by rewrite (Z.mul_comm v1).
Qed.

(** X7: scaling in place by [a] and then by [b] is scaling by the product
    [a * b] taken in the element type. *)
Theorem mul_scalar_compose (ty : int_type) (a b : Z) (y : nat) (size : Z)
    (m : memory) (ys : list Z) :
  m !! y = Some ys → 0 ≤ size → size ≤ Z.of_nat (length ys) →
  ∃ m1, mul_scalar ty a y size m = Some m1 ∧
        mul_scalar ty b y size m1
        = mul_scalar ty (norm ty (a * b)) y size m.
Proof.
  intros Hy Hsize Hys. eexists. split.
  { unfold mul_scalar. by apply unary_transform_at_closed. }
  set (ys1 := ((λ v, norm ty (v * a)) <$> take (Z.to_nat size) ys)
                ++ drop (Z.to_nat size) ys).
  assert (length ys1 = length ys) as Hlen1.
  { unfold ys1. rewrite length_app, length_fmap, length_take, length_drop.
    lia. }
  unfold mul_scalar.
  rewrite (unary_transform_at_closed y y size _ _ ys1 ys1);
    [| by rewrite lookup_insert_eq.. | done | lia | lia].
  rewrite (unary_transform_at_closed y y size _ m ys ys) by done.
  rewrite insert_insert_eq. do 2 f_equal.
  unfold ys1. rewrite take_app_length', drop_app_length'
    by (rewrite length_fmap, length_take; lia).
  f_equal. rewrite <- list_fmap_compose. apply list_fmap_ext.
  intros _ v _. simpl. rewrite norm_mul_l.
  rewrite (Z.mul_comm v (norm ty (a * b))), norm_mul_l. f_equal. lia.
Qed.

(** ** relu *)

Lemma relu_func ty v :
  (if bool_decide (0 < v) then v else norm ty 0) = Z.max 0 v.
Proof. rewrite norm_zero. case_bool_decide; lia. Qed.

Lemma relu_at_closed (ty : int_type) (x y : nat) (size : Z) (m : memory)
    (xs ys : list Z) :
  m !! x = Some xs → m !! y = Some ys →
  0 ≤ size → size ≤ Z.of_nat (length xs) → size ≤ Z.of_nat (length ys) →
  relu ty x y size m
  = Some (<[y := (Z.max 0 <$> take (Z.to_nat size) xs)
                   ++ drop (Z.to_nat size) ys]> m).
Proof.
  intros Hx Hy Hsize Hxs Hys. unfold relu.
  rewrite (unary_transform_at_closed x y size
             (λ v, if bool_decide (0 < v) then v else norm ty 0) m xs ys)
    by done.
  do 3 f_equal. apply list_fmap_ext. intros _ v _. apply relu_func.
Qed.

(** X8: [relu] writes [0] for every input that is not positive and the input
    itself otherwise, that is [max(0, x[i])], for [i < size]; the rest of
    the output and every other buffer are kept, also when the output is the
    input. *)
Theorem relu_closed (ty : int_type) (x y : nat) (size : Z) (m : memory)
    (xs ys : list Z) :
  m !! x = Some xs → m !! y = Some ys →
  0 ≤ size → size ≤ Z.of_nat (length xs) → size ≤ Z.of_nat (length ys) →
  relu ty x y size m
  = Some (<[y := (Z.max 0 <$> take (Z.to_nat size) xs)
                   ++ drop (Z.to_nat size) ys]> m).
Proof. apply relu_at_closed. Qed.

(** X9: the in-place [relu(x, size)] is idempotent: a second call changes
    nothing. *)
Theorem relu_inplace_idempotent (ty : int_type) (x : nat) (size : Z)
    (m : memory) (xs : list Z) :
  m !! x = Some xs → 0 ≤ size → size ≤ Z.of_nat (length xs) →
  ∃ m1, relu_inplace ty x size m = Some m1 ∧
        relu_inplace ty x size m1 = Some m1.
Proof.
  intros Hx Hsize Hxs. eexists. split.
  { unfold relu_inplace. by apply relu_at_closed. }
  set (xs1 := (Z.max 0 <$> take (Z.to_nat size) xs)
                ++ drop (Z.to_nat size) xs).
  assert (length xs1 = length xs) as Hlen1.
  { unfold xs1. rewrite length_app, length_fmap, length_take, length_drop.
    lia. }
  unfold relu_inplace.
  rewrite (relu_at_closed ty x x size _ xs1 xs1);
    [| by rewrite lookup_insert_eq.. | done | lia | lia].
  rewrite insert_insert_eq. do 2 f_equal.
  unfold xs1 at 1 2. rewrite take_app_length', drop_app_length'
    by (rewrite length_fmap, length_take; lia).
  unfold xs1. f_equal. rewrite <- list_fmap_compose. apply list_fmap_ext.
  intros _ v _. simpl. lia.
Qed.

(** ** inv *)

Lemma quot_one v :
  v ≠ 0 → 1 ÷ v = if decide (v = 1 ∨ v = -1) then v else 0.
Proof.
  intros Hv. destruct (decide (v = 1 ∨ v = -1)) as [[-> | ->]|Hne];
    [done | done |].
  destruct (decide (0 < v)).
  - apply Z.quot_small. lia.
  - replace v with (- - v) by lia. rewrite Z.quot_opp_r by lia.
    rewrite Z.quot_small by lia. done.
Qed.

(** X10: on a buffer of non-zero values of an integer element type, [inv]
    writes the truncating quotient [1 / x[i]]: the input itself where it is
    [1] or [-1], and [0] everywhere else. *)
Theorem inv_closed (ty : int_type) (x y : nat) (size : Z) (m : memory)
    (xs ys : list Z) :
  m !! x = Some xs → m !! y = Some ys →
  0 ≤ size → size ≤ Z.of_nat (length xs) → size ≤ Z.of_nat (length ys) →
  Forall (λ v, v ≠ 0 ∧ in_range ty v) (take (Z.to_nat size) xs) →
  inv ty x y size m
  = Some (<[y := ((λ v, if decide (v = 1 ∨ v = -1) then v else 0)
                    <$> take (Z.to_nat size) xs)
                   ++ drop (Z.to_nat size) ys]> m).
Proof.
  intros Hx Hy Hsize Hxs Hys Hall. unfold inv.
  assert (∀ i v, 0 ≤ i < size → load xs i = Some v →
            v ≠ 0 ∧ in_range ty v) as Helem.
  { intros i v Hi Hv. rewrite load_nat in Hv by lia.
    apply (Forall_lookup_1 _ _ (Z.to_nat i) v) in Hall; [done|].
    by rewrite lookup_take_lt by lia. }
  destruct (unary_transform_at_spec x y size
              (λ v, if decide (v = 0) then None else Some (norm ty (1 ÷ v)))
              m xs ys Hx Hy Hsize Hxs Hys)
    as (out & -> & Hlen & Hval & Hrest).
  { intros i v Hi Hv. destruct (Helem i v Hi Hv) as [Hne _].
    by rewrite decide_False. }
  do 2 f_equal. apply prefix_update_ext; [done | | done.. | | done].
  - rewrite length_fmap, length_take. lia.
  - intros i Hi. destruct (Hval i Hi) as (v & Hv & ->).
    destruct (Helem i v Hi Hv) as [Hne Hr].
    rewrite decide_False by done. rewrite quot_one by done.
    rewrite load_nat in Hv by lia. rewrite load_nat by lia.
    rewrite list_lookup_fmap, lookup_take_lt, Hv by lia. simpl. f_equal.
    case_decide; [by apply norm_id | apply norm_zero].
Qed.

(** X11: [inv] has no result when one of the first [size] inputs is zero. *)
Theorem inv_of_zero (ty : int_type) (x y : nat) (size : Z) (m : memory)
    (xs ys : list Z) (i : Z) :
  m !! x = Some xs → m !! y = Some ys →
  size ≤ Z.of_nat (length xs) → size ≤ Z.of_nat (length ys) →
  0 ≤ i < size → load xs i = Some 0 →
  inv ty x y size m = None.
Proof.
  intros Hx Hy Hxs Hys Hi Hzero. unfold inv.
  by apply (unary_transform_at_undefined x y size _ m xs ys i 0).
Qed.

(** ** fill and copy *)

(** A loop that stores [g i] at every index [i < size]. *)
Lemma store_loop_closed {T} (g : Z → T) (buf : list T) (size : Z) :
  0 ≤ size ≤ Z.of_nat (length buf) →
  for_range size (λ i buf, store buf i (g i)) buf
  = Some ((g <$> seqZ 0 size) ++ drop (Z.to_nat size) buf).
Proof.
  intros Hsize.
  destruct (for_range_inv
      (λ j t, t = (g <$> seqZ 0 j) ++ drop (Z.to_nat j) buf)
      (λ j t, store t j (g j)) size buf)
    as (t & -> & ->); [lia | done | | done].
  intros j t Hj ->.
  assert (length (g <$> seqZ 0 j) = Z.to_nat j) as Hlen
    by (by rewrite length_fmap, length_seqZ).
  destruct (lookup_lt_is_Some_2 buf (Z.to_nat j)) as [y Hy]; [lia|].
  rewrite store_Some.
  2:{ rewrite length_app, length_drop, Hlen. lia. }
  eexists. split; [done|].
  replace (Z.to_nat j) with (length (g <$> seqZ 0 j) + 0)%nat at 1 by lia.
  rewrite insert_app_r, (drop_S _ _ _ Hy). simpl.
  replace (j + 1) with (Z.of_nat (S (Z.to_nat j))) by lia.
  rewrite seqZ_S, Z2Nat.id, fmap_app, <- (assoc_L (++)) by lia. simpl.
  do 3 f_equal. lia.
Qed.

Lemma store_loop_overflow {T} (g : Z → T) (buf : list T) (size : Z) :
  Z.of_nat (length buf) < size →
  for_range size (λ i buf, store buf i (g i)) buf = None.
Proof.
  intros Hsize. rewrite for_range_run.
  replace size with (Z.of_nat (length buf)
                     + (size - Z.of_nat (length buf))) by lia.
  rewrite seqZ_app, run_app by lia.
  rewrite <- for_range_run, store_loop_closed by lia. simpl.
  rewrite seqZ_cons by lia. simpl.
  rewrite store_None; [done|].
  rewrite length_app, length_drop, length_fmap, length_seqZ. lia.
Qed.

(** X12: [fill(x, a, size)] writes [a] to the first [size] elements of [x]
    and keeps the others; with fewer than [size] elements in the buffer it
    runs past the end and has no result. *)
Theorem fill_closed {T} (x : list T) (a : T) (size : Z) :
  0 ≤ size →
  fill x a size
  = if decide (size ≤ Z.of_nat (length x))
    then Some (replicate (Z.to_nat size) a ++ drop (Z.to_nat size) x)
    else None.
Proof.
  intros Hsize. unfold fill. case_decide.
  - rewrite (store_loop_closed (λ _, a)) by lia. do 2 f_equal.
    apply list_eq. intros n. rewrite list_lookup_fmap.
    destruct (decide (Z.of_nat n < size)).
    + rewrite lookup_seqZ_lt, lookup_replicate_2 by lia. done.
    + rewrite lookup_seqZ_ge by lia. simpl. symmetry.
      apply lookup_ge_None. rewrite length_replicate. lia.
  - apply (store_loop_overflow (λ _, a)). lia.
Qed.

Lemma copy_spec {T} (x y : list T) (size : Z) :
  0 ≤ size →
  copy x y size
  = if decide (size ≤ Z.of_nat (length x) ∧ size ≤ Z.of_nat (length y))
    then Some (take (Z.to_nat size) x ++ drop (Z.to_nat size) y)
    else None.
Proof.
  intros Hsize. case_decide as Hlen.
  - change (copy x y size) with (unary_transform x y size id).
    rewrite unary_transform_closed by lia. by rewrite list_fmap_id.
  - destruct (copy x y size) as [y'|] eqn:Hrun; [|done]. exfalso.
    unfold copy in Hrun.
    set (j := Z.min (Z.of_nat (length x)) (Z.of_nat (length y))).
    destruct (for_range_Some_inv (λ _ (t : list T), length t = length y)
                _ _ _ _ Hrun) with (j := j) as (t & Ht & Hsome);
      [done | | lia |].
    + intros k t t' _ Ht Hbody.
      destruct (load x k); [|done]. simpl in Hbody.
      apply store_inv in Hbody as [_ ->]. by rewrite length_insert.
    + destruct (decide (Z.of_nat (length x) ≤ Z.of_nat (length y))).
      * assert (load x j = None) as Hx.
        { unfold load. case_decide; [|done]. apply lookup_ge_None. lia. }
        rewrite Hx in Hsome. by destruct Hsome.
      * destruct (load x j); [|by destruct Hsome]. simpl in Hsome.
        rewrite store_None in Hsome by lia. by destruct Hsome.
Qed.

(** X13: [copy(x, y, size)] puts the first [size] elements of [x] in front
    of the elements of [y] from [size] on; it has a result exactly when
    both buffers hold [size] elements. *)
Theorem copy_closed {T} (x y : list T) (size : Z) :
  0 ≤ size →
  copy x y size
  = if decide (size ≤ Z.of_nat (length x) ∧ size ≤ Z.of_nat (length y))
    then Some (take (Z.to_nat size) x ++ drop (Z.to_nat size) y)
    else None.
Proof. apply copy_spec. Qed.

(** ** sum *)

Lemma total_app (l1 l2 : list Z) :
  foldr Z.add 0 (l1 ++ l2) = foldr Z.add 0 l1 + foldr Z.add 0 l2.
Proof. induction l1 as [|v l1 IH]; simpl; lia. Qed.

Lemma sum_total ty (array : list Z) (size : Z) :
  0 ≤ size → size ≤ Z.of_nat (length array) →
  sum ty array size
  = Some (norm ty (foldr Z.add 0 (take (Z.to_nat size) array))).
Proof.
  intros Hsize Hlen. unfold sum, accumulate.
  destruct (for_range_inv
      (λ j acc, acc = norm ty (foldr Z.add 0 (take (Z.to_nat j) array)))
      (λ i acc, v ← load array i; Some (norm ty (acc + v)))
      size (norm ty 0)) as (s & -> & ->); [done | done | | done].
  intros j acc Hj ->.
  destruct (load_lt array j) as [v Hv]; [lia|].
  rewrite Hv. simpl. eexists. split; [done|].
  rewrite load_nat in Hv by lia.
  replace (Z.to_nat (j + 1)) with (S (Z.to_nat j)) by lia.
  rewrite (take_S_r _ _ _ Hv), total_app, norm_add_l. simpl.
  f_equal. lia.
Qed.

(** X14: [sum] is the mathematical sum of the first [size] elements reduced
    to the element type, whatever the intermediate sums are. *)
Theorem sum_closed ty (array : list Z) (size : Z) :
  0 ≤ size → size ≤ Z.of_nat (length array) →
  sum ty array size
  = Some (norm ty (foldr Z.add 0 (take (Z.to_nat size) array))).
Proof. apply sum_total. Qed.

Lemma total_norm_mod ty (l : list Z) :
  foldr Z.add 0 (norm ty <$> l) mod modulus ty
  = foldr Z.add 0 l mod modulus ty.
Proof.
  pose proof (modulus_pos ty). induction l as [|v l IH]; csimpl; [done|].
  rewrite Z.add_mod, norm_mod, IH, <- Z.add_mod by lia. done.
Qed.

Lemma total_zip_add (l1 l2 : list Z) :
  length l1 = length l2 →
  foldr Z.add 0 (zip_with Z.add l1 l2) = foldr Z.add 0 l1 + foldr Z.add 0 l2.
Proof.
  revert l2. induction l1 as [|v1 l1 IH]; intros [|v2 l2] Hlen;
    simplify_eq/=; [done|].
  rewrite IH by done. lia.
Qed.

(** X15: the sum of an elementwise [add] is the sum of the two sums, in the
    element type. *)
Theorem sum_of_add ty (a b c : list Z) (size : Z) :
  0 ≤ size → size ≤ Z.of_nat (length a) → size ≤ Z.of_nat (length b) →
  size ≤ Z.of_nat (length c) →
  ∃ c' sa sb,
    add ty a b c size = Some c' ∧
    sum ty a size = Some sa ∧ sum ty b size = Some sb ∧
    sum ty c' size = Some (norm ty (sa + sb)).
Proof.
  intros Hsize Ha Hb Hc. eexists _, _, _.
  split; [unfold add; by apply binary_transform_closed|].
  split; [by apply sum_total|]. split; [by apply sum_total|].
  rewrite sum_total; [|done|].
  2:{ rewrite length_app, length_zip_with, !length_take, length_drop. lia. }
  f_equal. rewrite take_app_length'.
  2:{ rewrite length_zip_with, !length_take. lia. }
  rewrite norm_add_l, norm_add_r. apply norm_congr.
  rewrite <- total_zip_add by (rewrite !length_take; lia).
  rewrite <- (total_norm_mod ty (zip_with Z.add _ _)). f_equal. f_equal.
  generalize (take (Z.to_nat size) a) (take (Z.to_nat size) b).
  induction l as [|v1 l1 IH]; intros [|v2 l2]; simpl; [done..|].
  by rewrite IH.
Qed.

(** X16: for an unsigned element type of at most 64 bits [mean] is the
    truncating quotient of [sum] by [size]. *)
Theorem mean_unsigned ty (array : list Z) (size : Z) :
  signed ty = false → (bits ty ≤ 64)%positive →
  0 < size → size ≤ Z.of_nat (length array) →
  ∃ s, sum ty array size = Some s ∧ mean ty array size = Some (s ÷ size).
Proof.
  intros Hu Hbits Hsize Hlen. eexists. split; [apply sum_total; lia|].
  pose proof (norm_in_range ty
                (foldr Z.add 0 (take (Z.to_nat size) array))) as Hr.
  apply mean_of_nonneg_sum; [done | done | apply sum_total; lia | | done].
  unfold in_range, min_value in Hr. rewrite Hu in Hr. lia.
Qed.

(** ** Top-k and the maximum *)

(** X17: with [k ≥ 1] the first index that [topk] returns holds the value
    that [max] returns, whichever library sorts, for every [size] that the
    counter of [std::iota] and the index type can count to. *)
Theorem topk_first_is_max partial_sort (ity : int_type) (x indices : list Z)
    (k size : Z) :
  partial_sort_contract partial_sort →
  1 ≤ k ≤ size → size = Z.of_nat (length x) →
  size ≤ Z.of_nat (length indices) →
  size ≤ max_value int32_t → size - 1 ≤ max_value ity →
  ∃ out i0 v,
    topk partial_sort ity x indices k size = Some out ∧
    load out 0 = Some i0 ∧
    load x i0 = Some v ∧
    max x size = Some v.
Proof.
  intros Hps Hk Hx Hcap Hint Hity.
  destruct (topk_outcome partial_sort ity x indices k size)
    as (range & Hout & Hperm & Hlen & Hrange & Hord); [done | lia | done..|].
  destruct (lookup_lt_is_Some_2 range 0) as [i0 Hi0]; [lia|].
  assert (0 ≤ i0 < size) as Hi0r
    by (apply Hrange; by eapply list_elem_of_lookup_2).
  destruct (max_element_spec x size Hx) as (mx & v & Hm & Hmr & Hv & Hmax & _);
    [lia|].
  exists (range ++ drop (Z.to_nat size) indices), i0, (x !!! Z.to_nat i0).
  split_and!.
  - done.
  - apply load_Some. split; [lia|]. by apply lookup_app_l_Some.
  - apply load_total. lia.
  - unfold max. rewrite Hm. simpl. rewrite Hv. f_equal.
    pose proof (Hmax i0 _ (load_total x i0 ltac:(lia))) as Hle.
    assert (v ≤ x !!! Z.to_nat i0); [|lia].
    rewrite (load_total x mx) in Hv by lia. injection Hv as <-.
    assert (mx ∈ range) as [q Hq]%list_elem_of_lookup_1 by (by apply Hrange).
    destruct q as [|q]; [by simplify_eq|].
    apply (Hord 0%nat (S q)); [lia | lia | done..].
Qed.

(** ** Batched gemm *)

(** X19: a batch of [n1 + n2] slices is the batch of the first [n1] slices
    followed by the batch of the other [n2], started at the pointers of
    slice [n1]. *)
Theorem gemm_batch_split {In Out Mem}
    (gemm : Z → Z → bool → bool → Z → Z → Z → In → Out → Z → Mem → option Mem)
    (a b : Z) (ta tb : bool) (n1 n2 m n k : Z) (alpha : In) (beta : Out)
    (c : Z) (mem : Mem) :
  0 ≤ n1 → 0 ≤ n2 → 0 ≤ m → 0 ≤ n → 0 ≤ k →
  (n1 + n2) * m * k < size_max → (n1 + n2) * k * n < size_max →
  (n1 + n2) * m * n < size_max →
  gemm_batch gemm a b ta tb (n1 + n2) m n k alpha beta c mem
  = mem1 ← gemm_batch gemm a b ta tb n1 m n k alpha beta c mem;
    gemm_batch gemm (a + n1 * m * k) (b + n1 * k * n) ta tb n2 m n k
      alpha beta (c + n1 * m * n) mem1.
Proof.
  intros Hn1 Hn2 Hm Hn Hk Ha Hb Hc.
  assert (∀ u v, 0 ≤ u → 0 ≤ v → (n1 + n2) * u * v < size_max →
            n1 * u * v < size_max ∧ n2 * u * v < size_max) as Hpart.
  { intros u v Hu Hv Hlt.
    assert (0 ≤ u * v) by (by apply Z.mul_nonneg_nonneg).
    assert (0 ≤ n1 * (u * v)) by (by apply Z.mul_nonneg_nonneg).
    assert (0 ≤ n2 * (u * v)) by (by apply Z.mul_nonneg_nonneg).
    rewrite <- !Z.mul_assoc in *. lia. }
  destruct (Hpart m k Hm Hk Ha), (Hpart k n Hk Hn Hb), (Hpart m n Hm Hn Hc).
  rewrite !gemm_batch_run by done.
  rewrite seqZ_app, run_app by done.
  destruct (run _ (seqZ 0 n1) mem) as [mem1|]; simpl; [|done].
  rewrite gemm_batch_run by done.
  replace (0 + n1) with (n1 + 0) by lia.
  rewrite <- (fmap_add_seqZ n1 0 n2), <- run_fmap.
  apply run_ext. intros i t _. f_equal; lia.
Qed.

(** ** Transposes *)

Lemma take_ext {T} (l1 l2 : list T) (n : Z) :
  0 ≤ n → n ≤ Z.of_nat (length l1) → n ≤ Z.of_nat (length l2) →
  (∀ i, 0 ≤ i < n → load l1 i = load l2 i) →
  take (Z.to_nat n) l1 = take (Z.to_nat n) l2.
Proof.
  intros Hn H1 H2 Heq. apply list_eq. intros p.
  destruct (decide (p < Z.to_nat n)%nat).
  - rewrite !lookup_take_lt by done.
    specialize (Heq (Z.of_nat p) ltac:(lia)).
    rewrite !load_nat, !Nat2Z.id in Heq by lia. done.
  - rewrite !lookup_take_ge by lia. done.
Qed.

(** X20: transposing a [d0 × d1] matrix and then the [d1 × d0] result gives
    the matrix back. *)
Theorem transpose_2d_involution {T} (a b b2 : list T) (d0 d1 : Z) :
  0 ≤ d0 → 0 ≤ d1 → d0 * d1 < size_max →
  d0 * d1 ≤ Z.of_nat (length a) → d0 * d1 ≤ Z.of_nat (length b) →
  d0 * d1 ≤ Z.of_nat (length b2) →
  ∃ b' a',
    transpose_2d a [d0; d1] b = Some b' ∧
    transpose_2d b' [d1; d0] b2 = Some a' ∧
    take (Z.to_nat (d0 * d1)) a' = take (Z.to_nat (d0 * d1)) a.
Proof.
  intros Hd0 Hd1 Hmax Ha Hb Hb2.
  destruct (transpose_2d_spec a b d0 d1 Hmax Ha Hb)
    as (b' & Hrun & Hlen & Hcopy & _).
  destruct (transpose_2d_spec b' b2 d1 d0)
    as (a' & Hrun' & Hlen' & Hcopy' & _); [lia | lia | lia |].
  exists b', a'. split_and!; [done..|].
  apply take_ext; [lia.. |].
  intros p Hp.
  assert (0 < d1) as Hpos by nia.
  pose proof (Z.div_mod p d1 ltac:(lia)) as Hdm.
  pose proof (Z.mod_pos_bound p d1 Hpos) as Hmod.
  assert (0 ≤ p / d1 < d0) as Hdiv.
  { split; [apply Z.div_pos; lia|]. apply Z.div_lt_upper_bound; lia. }
  destruct (Hcopy (p / d1) (p mod d1) Hdiv Hmod) as (v & Hv & Hv').
  destruct (Hcopy' (p mod d1) (p / d1) Hmod Hdiv) as (w & Hw & Hw').
  replace p with (p / d1 * d1 + p mod d1) by lia.
  rewrite Hw', Hv. congruence.
Qed.

(** Every cell below the number of elements is the row-major index of a
    multi-index. *)
Lemma product_nonneg dims : Forall (λ d, 0 ≤ d) dims → 0 ≤ product dims.
Proof.
  unfold product. induction 1 as [|d dims Hd _ IH]; simpl; [lia|].
  by apply Z.mul_nonneg_nonneg.
Qed.

Lemma row_major_surj dims j :
  Forall (λ d, 0 ≤ d) dims → 0 ≤ j < product dims →
  ∃ idx, multi_index dims idx ∧ row_major dims idx = j.
Proof.
  intros Hdims. revert j.
  induction Hdims as [|d dims Hd Hdims IH]; intros j Hj.
  - exists []. split; [constructor|]. simpl in *. unfold product in Hj.
    simpl in Hj. lia.
  - change (product (d :: dims)) with (d * product dims) in Hj.
    pose proof (product_nonneg dims Hdims) as Hnn.
    assert (0 < product dims) as Hpos by nia.
    pose proof (Z.div_mod j (product dims) ltac:(lia)) as Hdm.
    pose proof (Z.mod_pos_bound j (product dims) Hpos) as Hmod.
    destruct (IH (j mod product dims) Hmod) as (idx & Hidx & Hrm).
    exists (j / product dims :: idx). split.
    + constructor; [|done]. split; [apply Z.div_pos; lia|].
      apply Z.div_lt_upper_bound; lia.
    + simpl. rewrite Hrm. lia.
Qed.

Lemma permute_identity_3 (l : list Z) :
  length l = 3%nat → permute [0; 1; 2] l = l.
Proof. intros Hl. rewrite <- (permute_identity l) at 2. by rewrite Hl. Qed.

Lemma permute_identity_4 (l : list Z) :
  length l = 4%nat → permute [0; 1; 2; 3] l = l.
Proof. intros Hl. rewrite <- (permute_identity l) at 2. by rewrite Hl. Qed.

(** X21: with the identity permutation [transpose_3d] and [transpose_4d]
    are [copy] of as many elements as the tensor has. *)
Theorem transpose_identity_is_copy {T} (a b : list T) (dims : list Z) :
  Forall (λ d, 0 ≤ d) dims →
  product dims < size_max →
  product dims ≤ Z.of_nat (length a) → product dims ≤ Z.of_nat (length b) →
  (length dims = 3%nat →
   transpose_3d a dims [0; 1; 2] b = copy a b (product dims)) ∧
  (length dims = 4%nat →
   transpose_4d a dims [0; 1; 2; 3] b = copy a b (product dims)).
Proof.
  intros Hdims Hmax Ha Hb.
  pose proof (product_nonneg dims Hdims) as Hnn.
  assert (∀ b', length b' = length b →
            (∀ idx, multi_index dims idx →
               ∃ v, load a (row_major dims idx) = Some v ∧
                    load b' (row_major dims idx) = Some v) →
            (∀ j, product dims ≤ j → load b' j = load b j) →
            Some b' = copy a b (product dims)) as Hcopy.
  { intros b' Hlen Hval Hframe.
    rewrite copy_spec, decide_True by lia. f_equal.
    apply prefix_update_ext; [lia | | lia | done | | done].
    - rewrite length_take. lia.
    - intros j Hj.
      destruct (row_major_surj dims j Hdims Hj) as (idx & Hidx & <-).
      destruct (Hval idx Hidx) as (v & Hv & ->).
      rewrite load_nat in Hv by lia. rewrite load_nat by lia.
      rewrite lookup_take_lt; [done|].
      pose proof (row_major_bound _ _ Hidx). lia. }
  split; intros Hlen.
  - destruct dims as [|d0 [|d1 [|d2 [|]]]]; try done.
    destruct (transpose_3d_spec a b d0 d1 d2 [0; 1; 2])
      as (b' & -> & Hlen' & Hval & Hframe); [| done..|].
    { unfold is_permutation. done. }
    apply Hcopy; [done | | done].
    intros idx Hidx. destruct (Hval idx Hidx) as (v & Hv & Hv').
    rewrite !permute_identity_3 in Hv'
      by (done || by rewrite (Forall2_length _ _ _ Hidx)).
    by exists v.
  - destruct dims as [|d0 [|d1 [|d2 [|d3 [|]]]]]; try done.
    destruct (transpose_4d_spec a b d0 d1 d2 d3 [0; 1; 2; 3])
      as (b' & -> & Hlen' & Hval & Hframe); [| done..|].
    { unfold is_permutation. done. }
    apply Hcopy; [done | | done].
    intros idx Hidx. destruct (Hval idx Hidx) as (v & Hv & Hv').
    rewrite !permute_identity_4 in Hv'
      by (done || by rewrite (Forall2_length _ _ _ Hidx)).
    by exists v.
Qed.

(** The entries of [perm] that [inverse_perm] reads exist and index
    [perm_ind]. *)
Lemma inverse_perm_entries n perm pi :
  inverse_perm n perm = Some pi →
  ∀ i, 0 ≤ i < n → ∃ p, load perm i = Some p ∧ 0 ≤ p < n.
Proof.
  intros Hrun i Hi. unfold inverse_perm in Hrun.
  destruct (for_range_Some_inv
              (λ _ (t : list (option Z)), length t = Z.to_nat n)
              _ _ _ _ Hrun) with (j := i) as (t & Ht & Hsome);
    [apply length_replicate | | done |].
  - intros j t t' _ Ht Hbody.
    destruct (load perm j); [|done]. simpl in Hbody.
    apply store_inv in Hbody as [_ ->]. by rewrite length_insert.
  - destruct (load perm i) as [p|]; [|by destruct Hsome].
    exists p. split; [done|]. simpl in Hsome. destruct Hsome as [t' Ht'].
    apply store_inv in Ht' as [? _]. lia.
Qed.

Lemma load_stride_init b_stride perm_ind j s :
  load_stride b_stride perm_ind j = Some s → is_Some (load_init perm_ind j).
Proof.
  unfold load_stride. intros (p & Hp & _)%bind_Some. by exists p.
Qed.

Lemma inverse_perm_3_total perm pi :
  inverse_perm 3 perm = Some pi →
  is_Some (load_init pi 0) → is_Some (load_init pi 1) →
  is_Some (load_init pi 2) →
  is_permutation 3 (take 3 perm).
Proof.
  intros Hpi H0 H1 H2.
  destruct (inverse_perm_entries 3 perm pi Hpi 0) as (p0 & Hp0 & Hr0); [lia|].
  destruct (inverse_perm_entries 3 perm pi Hpi 1) as (p1 & Hp1 & Hr1); [lia|].
  destruct (inverse_perm_entries 3 perm pi Hpi 2) as (p2 & Hp2 & Hr2); [lia|].
  destruct perm as [|q0 [|q1 [|q2 rest]]]; try done.
  vm_compute in Hp0, Hp1, Hp2. simplify_eq.
  assert (p0 = 0 ∨ p0 = 1 ∨ p0 = 2) as [->|[->| ->]] by lia;
  assert (p1 = 0 ∨ p1 = 1 ∨ p1 = 2) as [->|[->| ->]] by lia;
  assert (p2 = 0 ∨ p2 = 1 ∨ p2 = 2) as [->|[->| ->]] by lia;
  vm_compute in Hpi; injection Hpi as <-;
  first
    [ by (exfalso; vm_compute in H0; destruct H0 as [? [=]])
    | by (exfalso; vm_compute in H1; destruct H1 as [? [=]])
    | by (exfalso; vm_compute in H2; destruct H2 as [? [=]])
    | (apply is_permutation_cases;
       apply (bool_decide_eq_true_1 (_ ∈ _)); vm_compute; reflexivity) ].
Qed.

Lemma inverse_perm_4_total perm pi :
  inverse_perm 4 perm = Some pi →
  is_Some (load_init pi 0) → is_Some (load_init pi 1) →
  is_Some (load_init pi 2) → is_Some (load_init pi 3) →
  is_permutation 4 (take 4 perm).
Proof.
  intros Hpi H0 H1 H2 H3.
  destruct (inverse_perm_entries 4 perm pi Hpi 0) as (p0 & Hp0 & Hr0); [lia|].
  destruct (inverse_perm_entries 4 perm pi Hpi 1) as (p1 & Hp1 & Hr1); [lia|].
  destruct (inverse_perm_entries 4 perm pi Hpi 2) as (p2 & Hp2 & Hr2); [lia|].
  destruct (inverse_perm_entries 4 perm pi Hpi 3) as (p3 & Hp3 & Hr3); [lia|].
  destruct perm as [|q0 [|q1 [|q2 [|q3 rest]]]]; try done.
  vm_compute in Hp0, Hp1, Hp2, Hp3. simplify_eq.
  assert (p0 = 0 ∨ p0 = 1 ∨ p0 = 2 ∨ p0 = 3) as [->|[->|[->| ->]]] by lia;
  assert (p1 = 0 ∨ p1 = 1 ∨ p1 = 2 ∨ p1 = 3) as [->|[->|[->| ->]]] by lia;
  assert (p2 = 0 ∨ p2 = 1 ∨ p2 = 2 ∨ p2 = 3) as [->|[->|[->| ->]]] by lia;
  assert (p3 = 0 ∨ p3 = 1 ∨ p3 = 2 ∨ p3 = 3) as [->|[->|[->| ->]]] by lia;
  vm_compute in Hpi; injection Hpi as <-;
  first
    [ by (exfalso; vm_compute in H0; destruct H0 as [? [=]])
    | by (exfalso; vm_compute in H1; destruct H1 as [? [=]])
    | by (exfalso; vm_compute in H2; destruct H2 as [? [=]])
    | by (exfalso; vm_compute in H3; destruct H3 as [? [=]])
    | (apply is_permutation_cases;
       apply (bool_decide_eq_true_1 (_ ∈ _)); vm_compute; reflexivity) ].
Qed.

(** X22: [transpose_3d] and [transpose_4d] have a result only when the
    entries of [perm] that they read are a permutation of the axis indices:
    otherwise [perm_ind] is indexed out of its bounds or one of its cells is
    read without having been assigned. *)
Theorem transpose_needs_permutation {T} (a b : list T) (dims perm : list Z) :
  (is_Some (transpose_3d a dims perm b) → is_permutation 3 (take 3 perm)) ∧
  (is_Some (transpose_4d a dims perm b) → is_permutation 4 (take 4 perm)).
Proof.
  split; intros [b' Hrun].
  - unfold transpose_3d in Hrun.
    apply bind_Some in Hrun as (pi & Hpi & Hrun).
    do 3 apply bind_Some in Hrun as (? & _ & Hrun). cbv zeta in Hrun.
    do 2 apply bind_Some in Hrun as (? & _ & Hrun). cbv zeta in Hrun.
    apply bind_Some in Hrun as (? & H0%load_stride_init & Hrun).
    apply bind_Some in Hrun as (? & H1%load_stride_init & Hrun).
    apply bind_Some in Hrun as (? & H2%load_stride_init & Hrun).
    by apply (inverse_perm_3_total perm pi).
  - unfold transpose_4d in Hrun.
    apply bind_Some in Hrun as (pi & Hpi & Hrun).
    do 4 apply bind_Some in Hrun as (? & _ & Hrun). cbv zeta in Hrun.
    do 3 apply bind_Some in Hrun as (? & _ & Hrun). cbv zeta in Hrun.
    apply bind_Some in Hrun as (? & H0%load_stride_init & Hrun).
    apply bind_Some in Hrun as (? & H1%load_stride_init & Hrun).
    apply bind_Some in Hrun as (? & H2%load_stride_init & Hrun).
    apply bind_Some in Hrun as (? & H3%load_stride_init & Hrun).
    by apply (inverse_perm_4_total perm pi).
Qed.

(** The row-major indices of all multi-indices are the cells below the
    number of elements. *)
Lemma row_major_indices dims :
  Forall (λ d, 0 ≤ d) dims →
  row_major dims <$> multi_indices dims ≡ₚ seqZ 0 (product dims).
Proof.
  intros Hdims. apply NoDup_Permutation.
  - apply NoDup_fmap_2_strong; [|apply NoDup_multi_indices].
    intros i1 i2 Hi1%elem_of_multi_indices Hi2%elem_of_multi_indices.
    by apply row_major_inj.
  - apply NoDup_seqZ.
  - intros j. rewrite list_elem_of_fmap, elem_of_seqZ. split.
    + intros (idx & -> & Hidx%elem_of_multi_indices).
      pose proof (row_major_bound _ _ Hidx). lia.
    + intros Hj. destruct (row_major_surj dims j Hdims) as (idx & Hidx & <-);
        [lia|].
      exists idx. split; [done | by apply elem_of_multi_indices].
Qed.

(** So are the row-major indices of the permuted multi-indices over the
    permuted extents. *)
Lemma permuted_indices dims perm :
  Forall (λ d, 0 ≤ d) dims →
  is_permutation (Z.of_nat (length dims)) perm →
  (λ idx, row_major (permute perm dims) (permute perm idx))
    <$> multi_indices dims ≡ₚ seqZ 0 (product dims).
Proof.
  intros Hdims Hperm. apply submseteq_length_Permutation.
  - apply NoDup_submseteq.
    + apply NoDup_fmap_2_strong; [|apply NoDup_multi_indices].
      intros i1 i2 Hi1%elem_of_multi_indices Hi2%elem_of_multi_indices Heq.
      apply row_major_inj in Heq; [|by apply multi_index_permute..].
      apply (permute_inj perm); [|by rewrite (Forall2_length _ _ _ Hi1),
                                     (Forall2_length _ _ _ Hi2) | done].
      by rewrite (Forall2_length _ _ _ Hi1).
    + intros j (idx & -> & Hidx%elem_of_multi_indices)%list_elem_of_fmap.
      pose proof (row_major_bound _ _
                    (multi_index_permute perm dims idx Hperm Hidx)) as Hr.
      rewrite product_permute in Hr by done. apply elem_of_seqZ. lia.
  - rewrite <- (row_major_indices dims Hdims). by rewrite !length_fmap.
Qed.

Lemma take_as_loads {T} (x : T) (l : list T) (n : Z) :
  n ≤ Z.of_nat (length l) →
  take (Z.to_nat n) l = (λ j, default x (load l j)) <$> seqZ 0 n.
Proof.
  intros Hn. apply list_eq. intros p. rewrite list_lookup_fmap.
  destruct (decide (Z.of_nat p < n)).
  - rewrite lookup_take_lt, lookup_seqZ_lt by lia.
    destruct (lookup_lt_is_Some_2 l p) as [v Hv]; [lia|].
    assert (load l (0 + Z.of_nat p) = Some v) as Hload.
    { rewrite load_nat by lia. by replace (Z.to_nat (0 + Z.of_nat p)) with p
        by lia. }
    simpl. by rewrite Hload, Hv.
  - rewrite lookup_take_ge, lookup_seqZ_ge by lia. done.
Qed.

(** A buffer that holds at the permuted index of every multi-index what [a]
    holds at its index is, on the cells of the tensor, a rearrangement of
    [a]. *)
Lemma rearranged_Permutation {T} (a b' : list T) (dims perm : list Z) :
  Forall (λ d, 0 ≤ d) dims →
  is_permutation (Z.of_nat (length dims)) perm →
  product dims ≤ Z.of_nat (length a) → product dims ≤ Z.of_nat (length b') →
  (∀ idx, multi_index dims idx →
     ∃ v, load a (row_major dims idx) = Some v ∧
          load b' (row_major (permute perm dims) (permute perm idx))
          = Some v) →
  take (Z.to_nat (product dims)) b' ≡ₚ take (Z.to_nat (product dims)) a.
Proof.
  intros Hdims Hperm Ha Hb Hval.
  destruct (decide (product dims ≤ 0)) as [Hz|Hpos].
  { by replace (Z.to_nat (product dims)) with 0%nat by lia. }
  destruct (load_lt a 0) as [x Hx]; [lia|].
  rewrite (take_as_loads x b'), (take_as_loads x a) by done.
  rewrite <- (permuted_indices dims perm Hdims Hperm) at 1.
  rewrite <- (row_major_indices dims Hdims).
  rewrite <- !list_fmap_compose.
  match goal with |- ?l1 ≡ₚ ?l2 => assert (l1 = l2) as ->; [|done] end.
  apply Forall_fmap_ext_1, Forall_forall.
  intros idx Hidx%elem_of_multi_indices. simpl.
  destruct (Hval idx Hidx) as (v & -> & ->). done.
Qed.

(** X23: [transpose_3d] and [transpose_4d] only rearrange: the cells of the
    output tensor hold exactly the elements of the input tensor, each as
    often as the input has it. *)
Theorem transpose_rearranges {T} (a b : list T) (dims perm : list Z) :
  Forall (λ d, 0 ≤ d) dims →
  is_permutation (Z.of_nat (length dims)) perm →
  product dims < size_max →
  product dims ≤ Z.of_nat (length a) → product dims ≤ Z.of_nat (length b) →
  (length dims = 3%nat →
   ∃ b', transpose_3d a dims perm b = Some b' ∧
     take (Z.to_nat (product dims)) b' ≡ₚ take (Z.to_nat (product dims)) a) ∧
  (length dims = 4%nat →
   ∃ b', transpose_4d a dims perm b = Some b' ∧
     take (Z.to_nat (product dims)) b' ≡ₚ take (Z.to_nat (product dims)) a).
Proof.
  intros Hdims Hperm Hmax Ha Hb. split; intros Hlen.
  - destruct dims as [|d0 [|d1 [|d2 [|]]]]; try done.
    destruct (transpose_3d_spec a b d0 d1 d2 perm Hperm Hmax Ha Hb)
      as (b' & Hrun & Hlen' & Hval & _).
    exists b'. split; [done|].
    apply (rearranged_Permutation a b' _ perm); [done.. | lia | done].
  - destruct dims as [|d0 [|d1 [|d2 [|d3 [|]]]]]; try done.
    destruct (transpose_4d_spec a b d0 d1 d2 d3 perm Hperm Hmax Ha Hb)
      as (b' & Hrun & Hlen' & Hval & _).
    exists b'. split; [done|].
    apply (rearranged_Permutation a b' _ perm); [done.. | lia | done].
Qed.

Lemma drop_ext {T} (l1 l2 : list T) (n : Z) :
  0 ≤ n → length l1 = length l2 →
  (∀ j, n ≤ j → load l1 j = load l2 j) →
  drop (Z.to_nat n) l1 = drop (Z.to_nat n) l2.
Proof.
  intros Hn Hlen Heq. apply list_eq. intros p. rewrite !lookup_drop.
  specialize (Heq (Z.of_nat (Z.to_nat n + p)) ltac:(lia)).
  rewrite !load_nat, !Nat2Z.id in Heq by lia. done.
Qed.

(** X24: the transposes keep the length of the output buffer and every cell
    of it after the cells of the tensor. *)
Theorem transpose_frame {T} (a b : list T) (dims perm : list Z) :
  Forall (λ d, 0 ≤ d) dims →
  product dims < size_max →
  product dims ≤ Z.of_nat (length a) → product dims ≤ Z.of_nat (length b) →
  (length dims = 2%nat →
   ∃ b', transpose_2d a dims b = Some b' ∧ length b' = length b ∧
     drop (Z.to_nat (product dims)) b' = drop (Z.to_nat (product dims)) b) ∧
  (length dims = 3%nat → is_permutation 3 perm →
   ∃ b', transpose_3d a dims perm b = Some b' ∧ length b' = length b ∧
     drop (Z.to_nat (product dims)) b' = drop (Z.to_nat (product dims)) b) ∧
  (length dims = 4%nat → is_permutation 4 perm →
   ∃ b', transpose_4d a dims perm b = Some b' ∧ length b' = length b ∧
     drop (Z.to_nat (product dims)) b' = drop (Z.to_nat (product dims)) b).
Proof.
  intros Hdims Hmax Ha Hb.
  pose proof (product_nonneg dims Hdims) as Hnn.
  split_and!; intros Hlen.
  - destruct dims as [|d0 [|d1 [|]]]; try done.
    assert (product [d0; d1] = d0 * d1) as Hprod by (simpl; lia).
    destruct (transpose_2d_spec a b d0 d1)
      as (b' & Hrun & Hlen' & _ & Hframe); [lia..|].
    exists b'. split_and!; [done..|].
    apply drop_ext; [done..|]. intros j Hj. apply Hframe. lia.
  - intros Hperm. destruct dims as [|d0 [|d1 [|d2 [|]]]]; try done.
    destruct (transpose_3d_spec a b d0 d1 d2 perm Hperm Hmax Ha Hb)
      as (b' & Hrun & Hlen' & _ & Hframe).
    exists b'. split_and!; [done..|]. by apply drop_ext.
  - intros Hperm. destruct dims as [|d0 [|d1 [|d2 [|d3 [|]]]]]; try done.
    destruct (transpose_4d_spec a b d0 d1 d2 d3 perm Hperm Hmax Ha Hb)
      as (b' & Hrun & Hlen' & _ & Hframe).
    exists b'. split_and!; [done..|]. by apply drop_ext.
Qed.

(** X25: [binary_transform] has a result exactly when each of the three
    buffers holds [size] elements: a shorter one is run past its end. *)
Theorem binary_transform_domain {T1 T2} (a b : list T1) (c : list T2)
    (size : Z) (func : T1 → T1 → T2) :
  0 ≤ size →
  is_Some (binary_transform a b c size func)
  ↔ size ≤ Z.of_nat (length a) ∧ size ≤ Z.of_nat (length b) ∧
    size ≤ Z.of_nat (length c).
Proof.
  intros Hsize. split.
  - intros [c' Hrun]. unfold binary_transform in Hrun.
    set (j := Z.min (Z.of_nat (length a))
                (Z.min (Z.of_nat (length b)) (Z.of_nat (length c)))).
    destruct (decide (size ≤ j)); [lia|]. exfalso.
    destruct (for_range_Some_inv (λ _ (t : list T2), length t = length c)
                _ _ _ _ Hrun) with (j := j) as (t & Ht & Hsome);
      [done | | lia |].
    + intros k t t' _ Ht Hbody.
      destruct (load a k); [|done]. simpl in Hbody.
      destruct (load b k); [|done]. simpl in Hbody.
      apply store_inv in Hbody as [_ ->]. by rewrite length_insert.
    + destruct (load a j) as [v1|] eqn:Hv1; [|by destruct Hsome].
      destruct (load b j) as [v2|] eqn:Hv2; [|by destruct Hsome].
      simpl in Hsome. destruct Hsome as [t' Ht'].
      apply store_inv in Ht' as [? _].
      apply load_Some_lt in Hv1, Hv2. lia.
  - intros (Ha & Hb & Hc).
    destruct (binary_transform_spec a b c size func Hsize Ha Hb Hc)
      as (c' & -> & _). by eexists.
Qed.

(** * Instances of the further properties *)

Lemma unary_transform_in_place_witness :
  ∃ out,
    unary_transform [3; -4; 5] [3; -4; 5] 2 Z.opp = Some out ∧
    unary_transform_at 0 0 2 (λ v, Some (- v)) {[0%nat := [3; -4; 5]]}
    = Some (<[0%nat := out]> {[0%nat := [3; -4; 5]]}).
Proof.
  apply (unary_transform_in_place 0 0 2 Z.opp {[0%nat := [3; -4; 5]]}
           [3; -4; 5] [3; -4; 5]);
    [reflexivity | reflexivity | lia | simpl; lia..].
Defined.

Lemma binary_transform_in_place_witness :
  ∃ out,
    binary_transform [1; 2; 3] [10; 20; 30] [10; 20; 30] 3 Z.sub = Some out ∧
    binary_transform_at 0 1 1 3 (λ v1 v2, Some (v1 - v2))
      (<[0%nat := [1; 2; 3]]> {[1%nat := [10; 20; 30]]})
    = Some (<[1%nat := out]>
              (<[0%nat := [1; 2; 3]]> {[1%nat := [10; 20; 30]]})).
Proof.
  apply (binary_transform_in_place 0 1 1 3 Z.sub
           (<[0%nat := [1; 2; 3]]> {[1%nat := [10; 20; 30]]})
           [1; 2; 3] [10; 20; 30] [10; 20; 30]);
    [reflexivity | reflexivity | reflexivity | lia | simpl; lia..].
Defined.

Lemma sub_scalar_closed_witness :
  sub_scalar int8_t (-128) 0 2 {[0%nat := [5; -6; 7]]}
  = Some (<[0%nat := ((λ v, norm int8_t (v - -128))
                        <$> take (Z.to_nat 2) [5; -6; 7])
                       ++ drop (Z.to_nat 2) [5; -6; 7]]>
            {[0%nat := [5; -6; 7]]}).
Proof.
  apply (sub_scalar_closed int8_t (-128) 0 2 {[0%nat := [5; -6; 7]]}
           [5; -6; 7]); [reflexivity | lia | simpl; lia].
Defined.

Lemma add_sub_scalar_restores_witness :
  ∃ m1,
    add_scalar int8_t 100 0 2 {[0%nat := [100; -100; 7]]} = Some m1 ∧
    sub_scalar int8_t 100 0 2 m1 = Some {[0%nat := [100; -100; 7]]}.
Proof.
  apply (add_sub_scalar_restores int8_t 100 0 2 {[0%nat := [100; -100; 7]]}
           [100; -100; 7]); [reflexivity | lia | simpl; lia |].
  repeat constructor; vm_compute; discriminate.
Defined.

Lemma mul_scalar_compose_witness :
  ∃ m1,
    mul_scalar int8_t 20 0 3 {[0%nat := [3; -5; 1]]} = Some m1 ∧
    mul_scalar int8_t 30 0 3 m1
    = mul_scalar int8_t (norm int8_t (20 * 30)) 0 3 {[0%nat := [3; -5; 1]]}.
Proof.
  apply (mul_scalar_compose int8_t 20 30 0 3 {[0%nat := [3; -5; 1]]}
           [3; -5; 1]); [reflexivity | lia | simpl; lia].
Defined.

Lemma relu_closed_witness :
  relu int32_t 0 1 3 (<[0%nat := [-2; 0; 9]]> {[1%nat := [4; 4; 4; 4]]})
  = Some (<[1%nat := (Z.max 0 <$> take (Z.to_nat 3) [-2; 0; 9])
                       ++ drop (Z.to_nat 3) [4; 4; 4; 4]]>
            (<[0%nat := [-2; 0; 9]]> {[1%nat := [4; 4; 4; 4]]})).
Proof.
  apply (relu_closed int32_t 0 1 3
           (<[0%nat := [-2; 0; 9]]> {[1%nat := [4; 4; 4; 4]]})
           [-2; 0; 9] [4; 4; 4; 4]);
    [reflexivity | reflexivity | lia | simpl; lia..].
Defined.

Lemma relu_inplace_idempotent_witness :
  ∃ m1,
    relu_inplace int32_t 0 3 {[0%nat := [-2; 0; 9]]} = Some m1 ∧
    relu_inplace int32_t 0 3 m1 = Some m1.
Proof.
  apply (relu_inplace_idempotent int32_t 0 3 {[0%nat := [-2; 0; 9]]}
           [-2; 0; 9]); [reflexivity | lia | simpl; lia].
Defined.

Lemma inv_closed_witness :
  inv int32_t 0 1 4 (<[0%nat := [1; -1; 2; -7]]> {[1%nat := [9; 9; 9; 9]]})
  = Some (<[1%nat := ((λ v, if decide (v = 1 ∨ v = -1) then v else 0)
                        <$> take (Z.to_nat 4) [1; -1; 2; -7])
                       ++ drop (Z.to_nat 4) [9; 9; 9; 9]]>
            (<[0%nat := [1; -1; 2; -7]]> {[1%nat := [9; 9; 9; 9]]})).
Proof.
  apply (inv_closed int32_t 0 1 4
           (<[0%nat := [1; -1; 2; -7]]> {[1%nat := [9; 9; 9; 9]]})
           [1; -1; 2; -7] [9; 9; 9; 9]);
    [reflexivity | reflexivity | lia | simpl; lia.. |].
  repeat constructor; first [discriminate | vm_compute; discriminate].
Defined.

Lemma inv_of_zero_witness :
  inv int32_t 0 1 3 (<[0%nat := [4; 0; 2]]> {[1%nat := [9; 9; 9]]}) = None.
Proof.
  apply (inv_of_zero int32_t 0 1 3
           (<[0%nat := [4; 0; 2]]> {[1%nat := [9; 9; 9]]})
           [4; 0; 2] [9; 9; 9] 1);
    [reflexivity | reflexivity | simpl; lia | simpl; lia | lia | reflexivity].
Defined.

Lemma fill_closed_witness :
  fill [1; 2; 3] 7 2 = Some (replicate (Z.to_nat 2) 7 ++ drop (Z.to_nat 2) [1; 2; 3]) ∧
  fill [1; 2; 3] 7 4 = None.
Proof.
  split.
  - rewrite (fill_closed [1; 2; 3] 7 2) by lia. reflexivity.
  - rewrite (fill_closed [1; 2; 3] 7 4) by lia. reflexivity.
Defined.

Lemma copy_closed_witness :
  copy [1; 2; 3] [9; 9; 9; 9] 2 = Some [1; 2; 9; 9] ∧
  copy [1; 2; 3] [9; 9; 9; 9] 4 = None.
Proof.
  split.
  - rewrite (copy_closed [1; 2; 3] [9; 9; 9; 9] 2) by lia. reflexivity.
  - rewrite (copy_closed [1; 2; 3] [9; 9; 9; 9] 4) by lia. reflexivity.
Defined.

Lemma sum_closed_witness :
  sum int8_t [100; 100; -50; 1] 3
  = Some (norm int8_t (foldr Z.add 0 (take (Z.to_nat 3) [100; 100; -50; 1]))).
Proof.
  apply (sum_closed int8_t [100; 100; -50; 1] 3); [lia | simpl; lia].
Defined.

Lemma sum_of_add_witness :
  ∃ c' sa sb,
    add int8_t [100; 27] [100; 1] [0; 0] 2 = Some c' ∧
    sum int8_t [100; 27] 2 = Some sa ∧ sum int8_t [100; 1] 2 = Some sb ∧
    sum int8_t c' 2 = Some (norm int8_t (sa + sb)).
Proof.
  apply (sum_of_add int8_t [100; 27] [100; 1] [0; 0] 2); [lia | simpl; lia..].
Defined.

Lemma mean_unsigned_witness :
  ∃ s, sum uint8_t [200; 100; 7] 3 = Some s ∧
       mean uint8_t [200; 100; 7] 3 = Some (s ÷ 3).
Proof.
  apply (mean_unsigned uint8_t [200; 100; 7] 3);
    [reflexivity | vm_compute; discriminate | lia | simpl; lia].
Defined.

Lemma topk_first_is_max_witness :
  ∃ out i0 v,
    topk partial_sort_ref int32_t [1; 5; 3; 5; 2] [0; 0; 0; 0; 0] 2 5
    = Some out ∧
    load out 0 = Some i0 ∧
    load [1; 5; 3; 5; 2] i0 = Some v ∧
    max [1; 5; 3; 5; 2] 5 = Some v.
Proof.
  apply (topk_first_is_max partial_sort_ref int32_t [1; 5; 3; 5; 2]
           [0; 0; 0; 0; 0] 2 5 partial_sort_ref_contract);
    [lia | reflexivity | simpl; lia | vm_compute; discriminate
    | vm_compute; discriminate].
Defined.

Lemma gemm_batch_split_witness :
  gemm_batch gemm_record 100 200 false true (2 + 1) 2 4 5 1 0 300 []
  = mem1 ← gemm_batch gemm_record 100 200 false true 2 2 4 5 1 0 300 [];
    gemm_batch gemm_record (100 + 2 * 2 * 5) (200 + 2 * 5 * 4) false true
      1 2 4 5 1 0 (300 + 2 * 2 * 4) mem1.
Proof.
  apply (gemm_batch_split gemm_record 100 200 false true 2 1 2 4 5 1 0 300 []);
    unfold size_max; lia.
Defined.

Lemma transpose_2d_involution_witness :
  ∃ b' a',
    transpose_2d [1; 2; 3; 4; 5; 6] [2; 3] (replicate 6 0) = Some b' ∧
    transpose_2d b' [3; 2] (replicate 6 0) = Some a' ∧
    take (Z.to_nat (2 * 3)) a' = take (Z.to_nat (2 * 3)) [1; 2; 3; 4; 5; 6].
Proof.
  apply (transpose_2d_involution [1; 2; 3; 4; 5; 6] (replicate 6 0)
           (replicate 6 0) 2 3);
    [lia | lia | unfold size_max; lia | simpl; lia..].
Defined.

Lemma transpose_identity_is_copy_witness :
  transpose_3d [1; 2; 3; 4; 5; 6] [1; 2; 3] [0; 1; 2] (replicate 7 0)
  = copy [1; 2; 3; 4; 5; 6] (replicate 7 0) (product [1; 2; 3]) ∧
  transpose_4d (seqZ 1 12) [1; 2; 3; 2] [0; 1; 2; 3] (replicate 12 0)
  = copy (seqZ 1 12) (replicate 12 0) (product [1; 2; 3; 2]).
Proof.
  split.
  - apply (transpose_identity_is_copy [1; 2; 3; 4; 5; 6] (replicate 7 0)
             [1; 2; 3]);
      [repeat constructor; lia | unfold size_max; simpl; lia | simpl; lia..
      | reflexivity].
  - apply (transpose_identity_is_copy (seqZ 1 12) (replicate 12 0)
             [1; 2; 3; 2]);
      [repeat constructor; lia | unfold size_max; simpl; lia | simpl; lia..
      | reflexivity].
Defined.

Lemma transpose_rearranges_witness :
  (∃ b',
     transpose_3d [1; 2; 3; 4; 5; 6] [1; 2; 3] [2; 0; 1] (replicate 6 0)
     = Some b' ∧
     take (Z.to_nat (product [1; 2; 3])) b'
     ≡ₚ take (Z.to_nat (product [1; 2; 3])) [1; 2; 3; 4; 5; 6]) ∧
  (∃ b',
     transpose_4d (seqZ 1 12) [1; 2; 3; 2] [3; 1; 0; 2] (replicate 12 0)
     = Some b' ∧
     take (Z.to_nat (product [1; 2; 3; 2])) b'
     ≡ₚ take (Z.to_nat (product [1; 2; 3; 2])) (seqZ 1 12)).
Proof.
  split.
  - apply (transpose_rearranges [1; 2; 3; 4; 5; 6] (replicate 6 0)
             [1; 2; 3] [2; 0; 1]);
      [repeat constructor; lia
      | apply is_permutation_cases;
        apply (bool_decide_eq_true_1 (_ ∈ _)); vm_compute; reflexivity
      | unfold size_max; simpl; lia | simpl; lia.. | reflexivity].
  - apply (transpose_rearranges (seqZ 1 12) (replicate 12 0)
             [1; 2; 3; 2] [3; 1; 0; 2]);
      [repeat constructor; lia
      | apply is_permutation_cases;
        apply (bool_decide_eq_true_1 (_ ∈ _)); vm_compute; reflexivity
      | unfold size_max; simpl; lia | simpl; lia.. | reflexivity].
Defined.

Lemma transpose_frame_witness :
  (∃ b',
     transpose_2d [1; 2; 3; 4; 5; 6] [2; 3] (replicate 8 0) = Some b' ∧
     length b' = length (replicate 8 (0 : Z)) ∧
     drop (Z.to_nat (product [2; 3])) b'
     = drop (Z.to_nat (product [2; 3])) (replicate 8 0)) ∧
  (∃ b',
     transpose_3d [1; 2; 3; 4; 5; 6] [1; 2; 3] [2; 0; 1] (replicate 8 0)
     = Some b' ∧
     length b' = length (replicate 8 (0 : Z)) ∧
     drop (Z.to_nat (product [1; 2; 3])) b'
     = drop (Z.to_nat (product [1; 2; 3])) (replicate 8 0)).
Proof.
  split.
  - apply (transpose_frame [1; 2; 3; 4; 5; 6] (replicate 8 0) [2; 3] []);
      [repeat constructor; lia | unfold size_max; simpl; lia | simpl; lia..
      | reflexivity].
  - apply (transpose_frame [1; 2; 3; 4; 5; 6] (replicate 8 0) [1; 2; 3]
             [2; 0; 1]);
      [repeat constructor; lia | unfold size_max; simpl; lia | simpl; lia..
      | reflexivity
      | apply is_permutation_cases;
        apply (bool_decide_eq_true_1 (_ ∈ _)); vm_compute; reflexivity].
Defined.

Lemma binary_transform_domain_witness :
  is_Some (binary_transform [1; 2; 3] [4; 5] [0; 0; 0] 3 Z.add)
  ↔ 3 ≤ Z.of_nat (length [1; 2; 3]) ∧ 3 ≤ Z.of_nat (length [4; 5]) ∧
    3 ≤ Z.of_nat (length [0; 0; 0]).
Proof.
  apply (binary_transform_domain [1; 2; 3] [4; 5] [0; 0; 0] 3 Z.add). lia.
Defined.

End primitives.
